(** * gonsole: command tree, filter set and per-cycle parser rebuild

    A shallow embedding of [command.go] (the persistent command tree, the
    console filter set, the lookup accessors and the rebuild cycle) and of
    the configuration reload path ([Console.LoadConfig] and
    [Console.reloadConfig]).

    Go pointers are addresses into explicit stores, so that aliasing is
    visible: a [*Command] is an index into the list of allocated command
    structs, a [[]string] is a slice header over a shared backing array, and
    a [*flags.Command] is an index into the list of objects the go-flags
    library has handed out.  A run-time panic (nil dereference, slice bounds)
    is a result of its own. *)

From Stdlib Require Import String List Arith Lia Bool.
From stdpp Require Import base option list gmap strings.

Local Open Scope string_scope.
Local Open Scope list_scope.

(** ** Results of Go code that may panic *)

Inductive panic :=
| NilDereference
| SliceBoundsOutOfRange.

Inductive result (A : Type) :=
| Ok (a : A)
| Panic (why : panic)
| OutOfFuel.

Arguments Ok {A} a.
Arguments Panic {A} why.
Arguments OutOfFuel {A}.

#[global] Instance result_ret : MRet result := fun A a => Ok a.

#[global] Instance result_bind : MBind result := fun A B f m =>
  match m with
  | Ok a => f a
  | Panic why => Panic why
  | OutOfFuel => OutOfFuel
  end.

(** [for _, x := range xs { st = body st x }] with a body that may panic. *)
Fixpoint foldM {S A : Type} (body : S -> A -> result S) (xs : list A) (st : S)
  : result S :=
  match xs with
  | [] => Ok st
  | x :: rest => st' ← body st x; foldM body rest st'
  end.

(** ** The console filter set ([Console.filters])

    [c.filters] is private to the console and never aliased: cells of its
    backing array beyond the current length are overwritten before they are
    read, so the field is modelled by its visible contents.  Inside
    [ShowCommands] the range clause keeps the slice header it started with
    while the loop body shrinks [c.filters] over the same backing array; that
    loop is modelled on the array cells. *)

(** [HideCommands]: return early when the filter is already there, append
    otherwise. *)
Fixpoint HideCommands_range (fs : list string) (filter : string) : bool :=
  match fs with
  | [] => false
  | f :: rest => if String.eqb f filter then true else HideCommands_range rest filter
  end.

Definition HideCommands (filters : list string) (filter : string) : list string :=
  if HideCommands_range filters filter then filters else filters ++ [filter].

(** State of the loop of [ShowCommands]: the cells of the backing array that
    the range clause iterates over, and the current length of [c.filters]. *)
Record showState := mkShow { cells : list string; flen : nat }.

(** The three statements executed on a match at index [i]:
    [copy(c.filters[i:], c.filters[i+1:])], then
    [c.filters[len(c.filters)-1] = ""], then
    [c.filters = c.filters[:len(c.filters)-1]].
    The slice expression [c.filters[i+1:]] panics when [i+1 > len(c.filters)]. *)
Definition ShowCommands_remove (st : showState) (i : nat) : result showState :=
  if decide (i + 1 <= flen st) then
    let shifted := take i (cells st)
                   ++ take (flen st - (i + 1)) (drop (i + 1) (cells st))
                   ++ drop (flen st - 1) (cells st) in
    let erased := <[flen st - 1 := ""]> shifted in
    Ok (mkShow erased (flen st - 1))
  else Panic SliceBoundsOutOfRange.

Definition ShowCommands_body (filter : string) (st : showState) (i : nat)
  : result showState :=
  match cells st !! i with
  | Some f => if String.eqb f filter then ShowCommands_remove st i else Ok st
  | None => Panic SliceBoundsOutOfRange
  end.

Definition ShowCommands (filters : list string) (filter : string)
  : result (list string) :=
  st ← foldM (ShowCommands_body filter) (seq 0 (length filters))
             (mkShow filters (length filters));
  Ok (take (flen st) (cells st)).

(** ** Data model *)

(** A [*Command] and a [*flags.Command]: positions in the stores below.  A
    field that may hold nil is an [option]; elsewhere a nil pointer is an
    address outside the store, and going through it panics. *)
Abbreviation addr := nat (only parsing).
Abbreviation haddr := nat (only parsing).

(** The value a data factory yields ([interface{}]); the console never looks
    inside it. *)
Definition Instance := nat.

(** [func() interface{}] *)
Definition DataFactory := unit -> Instance.

(** A [[]string] value: a header over a shared backing array.  Copying the
    header (as [Filters: filters] does) shares the array. *)
Record slice := mkSlice { s_array : nat; s_off : nat; s_len : nat }.

(** The closure [spawner] built by [AddCommand], as the values it captures;
    [run_spawner] below is its body. *)
Record Spawner := mkSpawner {
  sp_name : string; sp_short : string; sp_long : string; sp_data : DataFactory }.

(** Modelled from the spec: the declarations of the two kinds of completion
    provider are not among the sources; they are opaque to the command tree. *)
Inductive CompletionFunc := completionFunc (id : nat).
Inductive CompletionFuncDynamic := completionFuncDynamic (id : nat).

Module optionGroup.
(** Modelled from the spec: the declaration of [optionGroup] is not among the
    sources; a label (short and long) and a factory, which are the three
    fields [bindCommands] reads. *)
Record t := mk { short : string; long : string; generator : DataFactory }.
End optionGroup.

Module commandGroup.
(** Modelled from the spec: the declaration of [commandGroup] is not among the
    sources; a name and an ordered sequence of command pointers, which are the
    two fields the code reads and writes.  [c.groups] holds pointers to
    groups, but a group is only ever reached through the one node that holds
    it, so it is kept inside the node; the group [grp] of [AddCommand] is its
    position in [c.groups]. *)
Record t := mk { Name : string; cmds : list addr }.
Definition push (p : addr) (g : t) : t := mk (Name g) (cmds g ++ [p]).
End commandGroup.

Module Command.
Record t := mk {
  Name : string;
  ShortDescription : string;
  LongDescription : string;
  Group : string;
  Filters : option slice;
  SubcommandsOptional : bool;
  Data : option DataFactory;
  generator : option Spawner;
  cmd : option haddr;
  opts : list optionGroup.t;
  groups : list commandGroup.t;
  argComps : option (gmap string CompletionFunc);
  argCompsDynamic : option (gmap string CompletionFuncDynamic);
  optComps : option (gmap string CompletionFunc);
  optCompsDynamic : option (gmap string CompletionFuncDynamic) }.

Definition set_groups (gs : list commandGroup.t) (c : t) : t :=
  mk (Name c) (ShortDescription c) (LongDescription c) (Group c) (Filters c)
     (SubcommandsOptional c) (Data c) (generator c) (cmd c) (opts c) gs
     (argComps c) (argCompsDynamic c) (optComps c) (optCompsDynamic c).

Definition set_cmd (h : option haddr) (c : t) : t :=
  mk (Name c) (ShortDescription c) (LongDescription c) (Group c) (Filters c)
     (SubcommandsOptional c) (Data c) (generator c) h (opts c) (groups c)
     (argComps c) (argCompsDynamic c) (optComps c) (optCompsDynamic c).

(** All child pointers of a node, group after group. *)
Definition children (c : t) : list addr :=
  concat (commandGroup.cmds <$> groups c).
End Command.

(** The memory the command tree lives in: allocated [Command] structs and the
    backing arrays of [[]string] values. *)
Record Store := mkStore {
  commands : list Command.t;
  arrays : list (list string) }.

Definition deref (s : Store) (p : addr) : result Command.t :=
  match commands s !! p with
  | Some n => Ok n
  | None => Panic NilDereference
  end.

(** The elements a slice header denotes. *)
Definition slice_elems (s : Store) (sl : option slice) : list string :=
  match sl with
  | None => []
  | Some h => take (s_len h) (drop (s_off h) (default [] (arrays s !! s_array h)))
  end.

(** [newCommand] *)
Definition newCommand : Command.t :=
  Command.mk "" "" "" "" None false None None None [] []
             (Some ∅) (Some ∅) (Some ∅) (Some ∅).

(** ** [Command.AddCommand] *)

(** [for _, g := range c.groups { if g.Name == group { grp = g } }]: the loop
    has no break, so the last group of that name is kept.  [grp] is the
    position of the group in [c.groups]. *)
Fixpoint find_group (gs : list commandGroup.t) (group : string) (i : nat)
  (grp : option nat) : option nat :=
  match gs with
  | [] => grp
  | g :: rest =>
      find_group rest group (S i)
        (if String.eqb (commandGroup.Name g) group then Some i else grp)
  end.

Definition Command_AddCommand (s : Store) (c : addr)
  (name short long group : string) (filters : option slice)
  (data : option DataFactory) : result (Store * option addr) :=
  match data with
  | None => Ok (s, None)
  | Some data =>
      recv ← deref s c;
      let '(gs, grp) :=
        match find_group (Command.groups recv) group 0 None with
        | Some i => (Command.groups recv, i)
        | None => (Command.groups recv ++ [commandGroup.mk group []],
                   length (Command.groups recv))
        end in
      let spawner := mkSpawner name short long data in
      let command :=
        Command.mk name short long group filters false None (Some spawner)
                   None [] [] (Some ∅) (Some ∅) (Some ∅) (Some ∅) in
      let p := length (commands s) in
      let gs' := alter (commandGroup.push p) grp gs in
      Ok (mkStore (<[c := Command.set_groups gs' recv]> (commands s ++ [command]))
                  (arrays s),
          Some p)
  end.

(** [Command.Commands]: the two nested range loops, appending one pointer at a
    time. *)
Definition Command_Commands (s : Store) (c : addr) : result (list addr) :=
  recv ← deref s c;
  Ok (fold_left
        (fun cmds group =>
           fold_left (fun cmds cmd => cmds ++ [cmd]) (commandGroup.cmds group) cmds)
        (Command.groups recv) []).

(** [Command.CommandGroups] *)
Definition Command_CommandGroups (s : Store) (c : addr)
  : result (list commandGroup.t) :=
  recv ← deref s c; Ok (Command.groups recv).

(** [Command.GoFlagsCommands]: a pointer is appended only when the node has a
    generated handle. *)
Definition Command_GoFlagsCommands (s : Store) (c : addr) : result (list haddr) :=
  recv ← deref s c;
  foldM (fun cmds group =>
           foldM (fun cmds p =>
                    n ← deref s p;
                    match Command.cmd n with
                    | Some h => Ok (cmds ++ [h])
                    | None => Ok cmds
                    end)
                 (commandGroup.cmds group) cmds)
        (Command.groups recv) [].


(** The inner and outer loops of [FindCommand], with their early return. *)
Fixpoint find_in_cmds (s : Store) (ps : list addr) (name : string)
  : result (option addr) :=
  match ps with
  | [] => Ok None
  | p :: rest =>
      n ← deref s p;
      if String.eqb (Command.Name n) name then Ok (Some p)
      else find_in_cmds s rest name
  end.

Fixpoint find_in_groups (s : Store) (gs : list commandGroup.t) (name : string)
  : result (option addr) :=
  match gs with
  | [] => Ok None
  | g :: rest =>
      r ← find_in_cmds s (commandGroup.cmds g) name;
      match r with
      | Some p => Ok (Some p)
      | None => find_in_groups s rest name
      end
  end.

(** [Command.FindCommand] *)
Definition Command_FindCommand (s : Store) (c : addr) (name : string)
  : result (option addr) :=
  recv ← deref s c; find_in_groups s (Command.groups recv) name.

(** ** The go-flags objects and the log of outside calls *)

Module flags.
Record Group := mkGroup {
  gShort : string; gLong : string; gData : Instance }.

(** A [flags.Command]; a [flags.Parser] is one too, with its options. *)
Record Command := mk {
  Name : string;
  ShortDescription : string;
  LongDescription : string;
  data : option Instance;
  SubcommandsOptional : bool;
  Hidden : bool;
  groups : list Group;
  commands : list haddr;
  Options : nat }.

Definition add_group (g : Group) (c : Command) : Command :=
  mk (Name c) (ShortDescription c) (LongDescription c) (data c)
     (SubcommandsOptional c) (Hidden c) (groups c ++ [g]) (commands c) (Options c).

Definition add_command (h : haddr) (c : Command) : Command :=
  mk (Name c) (ShortDescription c) (LongDescription c) (data c)
     (SubcommandsOptional c) (Hidden c) (groups c) (commands c ++ [h]) (Options c).

Definition set_SubcommandsOptional (b : bool) (c : Command) : Command :=
  mk (Name c) (ShortDescription c) (LongDescription c) (data c)
     b (Hidden c) (groups c) (commands c) (Options c).

Definition set_Hidden (b : bool) (c : Command) : Command :=
  mk (Name c) (ShortDescription c) (LongDescription c) (data c)
     (SubcommandsOptional c) b (groups c) (commands c) (Options c).
End flags.

(** What the console does to the outside, in the order it does it. *)
Inductive event :=
| EvNewParser (h : haddr) (opts : nat)
| EvAddGroup (recv : haddr) (short long : string) (data : Instance)
| EvAddCommand (recv : haddr) (name short long : string) (data : Instance)
| EvPrintf (msg : string)
| EvSetHidden (h : haddr).

(** The go-flags objects handed out so far, and the log of calls. *)
Record World := mkWorld {
  handles : list flags.Command;
  log : list event }.

(** ** Configuration *)

Module PromptConfig.
Record t := mk {
  Left : string;
  Right : string;
  Newline : bool;
  Multiline : bool;
  MultilinePrompt : string }.
End PromptConfig.

Module Config.
(** [Prompts] maps a menu name to a [*PromptConfig]; an absent key and a key
    bound to nil both read as nil, and reading is all the console does.  A nil
    map is [None]. *)
Record t := mk {
  InputMode : string;
  Prompts : option (gmap string PromptConfig.t);
  Hints : bool;
  MaxTabCompleterRows : nat;
  Highlighting : option (gmap string string) }.

Definition set_Prompts (p : option (gmap string PromptConfig.t)) (c : t) : t :=
  mk (InputMode c) p (Hints c) (MaxTabCompleterRows c) (Highlighting c).

Definition set_Highlighting (h : option (gmap string string)) (c : t) : t :=
  mk (InputMode c) (Prompts c) (Hints c) (MaxTabCompleterRows c) h.
End Config.

Definition InputVim : string := "vim".
Definition InputEmacs : string := "emacs".

(** The fields of the readline shell that [reloadConfig] writes. *)
Inductive readline_InputMode := readline_Vim | readline_Emacs.

Module Shell.
Record t := mk {
  MultilinePrompt : string;
  Multiline : bool;
  InputMode : readline_InputMode }.
End Shell.

(** Modelled from the spec: the declaration of a context's prompt is not among
    the sources; a context has "its own prompt configuration", kept here as
    the templates it renders. *)
Module Prompt.
Record t := mk { left : string; right : string }.
End Prompt.

Module Context.
(** Modelled from the spec: the declaration of [Context] is not among the
    sources.  A context has a name, a root command acting as the tree root, its
    own prompt and its own generated-parser handle. *)
Record t := mk {
  Name : string;
  cmd : addr;
  parser : option haddr;
  Prompt : Prompt.t }.

Definition set_parser (h : option haddr) (cc : t) : t :=
  mk (Name cc) (cmd cc) h (Prompt cc).

Definition set_Prompt (p : Prompt.t) (cc : t) : t :=
  mk (Name cc) (cmd cc) (parser cc) p.
End Context.

Module Console.
(** Modelled from the spec: the declaration of [Console] is not among the
    sources; these are the fields its methods read and write.  [current] is
    the current context itself: no operation here switches contexts. *)
Record t := mk {
  store : Store;
  world : World;
  current : Context.t;
  filters : list string;
  parserOpts : nat;
  config : option Config.t;
  shell : Shell.t;
  PreOutputNewline : bool }.

Definition set_store (s : Store) (c : t) : t :=
  mk s (world c) (current c) (filters c) (parserOpts c) (config c) (shell c)
     (PreOutputNewline c).

Definition set_world (w : World) (c : t) : t :=
  mk (store c) w (current c) (filters c) (parserOpts c) (config c) (shell c)
     (PreOutputNewline c).

Definition set_current (cc : Context.t) (c : t) : t :=
  mk (store c) (world c) cc (filters c) (parserOpts c) (config c) (shell c)
     (PreOutputNewline c).

Definition set_filters (fs : list string) (c : t) : t :=
  mk (store c) (world c) (current c) fs (parserOpts c) (config c) (shell c)
     (PreOutputNewline c).

Definition set_config (conf : option Config.t) (c : t) : t :=
  mk (store c) (world c) (current c) (filters c) (parserOpts c) conf (shell c)
     (PreOutputNewline c).

Definition set_shell (sh : Shell.t) (c : t) : t :=
  mk (store c) (world c) (current c) (filters c) (parserOpts c) (config c) sh
     (PreOutputNewline c).

Definition set_PreOutputNewline (b : bool) (c : t) : t :=
  mk (store c) (world c) (current c) (filters c) (parserOpts c) (config c)
     (shell c) b.
End Console.

(** ** Console methods over the command tree *)

(** [Console.AddCommand] *)
Definition Console_AddCommand (c : Console.t)
  (name short long group : string) (filters : option slice)
  (data : option DataFactory) : result (Console.t * option addr) :=
  '(s, r) ← Command_AddCommand (Console.store c) (Context.cmd (Console.current c))
              name short long group filters data;
  Ok (Console.set_store s c, r).



(** [Console.HideCommands] and [Console.ShowCommands] on the console. *)
Definition Console_HideCommands (c : Console.t) (filter : string) : Console.t :=
  Console.set_filters (HideCommands (Console.filters c) filter) c.

Definition Console_ShowCommands (c : Console.t) (filter : string)
  : result Console.t :=
  fs ← ShowCommands (Console.filters c) filter;
  Ok (Console.set_filters fs c).

(** [Console.FindCommand]: the same two loops as [Command.FindCommand], over
    the groups of the current context's root command. *)
Definition Console_FindCommand (c : Console.t) (name : string)
  : result (option addr) :=
  root ← deref (Console.store c) (Context.cmd (Console.current c));
  find_in_groups (Console.store c) (Command.groups root) name.

(** [Console.GetCommands]: [groups[group.Name]] reads as the nil slice when the
    key is absent, and [cmd.cmd] is appended whether it is nil or not. *)
Definition Console_GetCommands (c : Console.t)
  : result (gmap string (list (option haddr)) * list string) :=
  root ← deref (Console.store c) (Context.cmd (Console.current c));
  foldM (fun '(groups, groupNames) group =>
           let groupNames := groupNames ++ [commandGroup.Name group] in
           groups ← foldM (fun (groups : gmap string (list (option haddr))) p =>
                             n ← deref (Console.store c) p;
                             Ok (<[commandGroup.Name group :=
                                     default [] (groups !! commandGroup.Name group)
                                     ++ [Command.cmd n]]> groups))
                          (commandGroup.cmds group) groups;
           Ok (groups, groupNames))
        (Command.groups root) (∅, []).

(** ** The visibility pass *)

(** [cmd.cmd.Hidden = true] *)
Definition mark_hidden (h : haddr) (c : Console.t) : result Console.t :=
  match handles (Console.world c) !! h with
  | None => Panic NilDereference
  | Some o =>
      Ok (Console.set_world
            (mkWorld (<[h := flags.set_Hidden true o]> (handles (Console.world c)))
                     (log (Console.world c) ++ [EvSetHidden h]))
            c)
  end.

(** The two innermost loops of [hideCommands]: is some filter of the command
    equal to some filter of the console?  On the first hit the code sets
    [Hidden] and continues with the next command. *)
Definition filters_match (filters : list string) (cmdFilters : list string) : bool :=
  existsb (fun cmdFilter =>
             existsb (fun filter => String.eqb filter cmdFilter) filters)
          cmdFilters.

(** The body of the loop labelled [nextCommand]. *)
Definition hideCommand (c : Console.t) (p : addr) : result Console.t :=
  n ← deref (Console.store c) p;
  match Command.cmd n with
  | None => Ok c
  | Some h =>
      if filters_match (Console.filters c)
                       (slice_elems (Console.store c) (Command.Filters n))
      then mark_hidden h c
      else Ok c
  end.

(** [Console.hideCommands]: only the groups of the context's root command are
    visited. *)
Definition hideCommands (c : Console.t) : result Console.t :=
  root ← deref (Console.store c) (Context.cmd (Console.current c));
  foldM (fun c group => foldM hideCommand (commandGroup.cmds group) c)
        (Command.groups root) c.

(** ** The rebuild cycle *)

(** Modelled from the spec: [initParser] is not among the sources.  Step 1 of
    the rebuild: the context's generated-parser handle is replaced by a fresh
    empty one, configured with the parser options of the console. *)
Definition initParser (c : Console.t) (opts : nat) : Console.t :=
  let h := length (handles (Console.world c)) in
  Console.set_current (Context.set_parser (Some h) (Console.current c))
    (Console.set_world
       (mkWorld (handles (Console.world c)
                 ++ [flags.mk "" "" "" None false false [] [] opts])
                (log (Console.world c) ++ [EvNewParser h opts]))
       c).

Section GoFlags.

(** The verdict of go-flags on a data instance: [None] when it scans, the
    error otherwise. *)
Variable scan : Instance -> option string.

(** [AddGroup] of a [flags.Command]: on success the group is attached to the
    receiver. *)
Definition flags_AddGroup (w : World) (recv : haddr) (short long : string)
  (data : Instance) : result World :=
  match handles w !! recv with
  | None => Panic NilDereference
  | Some o =>
      let w' := mkWorld (handles w) (log w ++ [EvAddGroup recv short long data]) in
      match scan data with
      | Some err => Ok w'
      | None =>
          Ok (mkWorld (<[recv := flags.add_group (flags.mkGroup short long data) o]>
                         (handles w'))
                      (log w'))
      end
  end.

(** [AddCommand] of a [flags.Command]: a fresh object, visible, attached to the
    receiver; or no object and an error. *)
Definition flags_AddCommand (w : World) (recv : haddr) (name short long : string)
  (data : Instance) : result (World * (option haddr * option string)) :=
  match handles w !! recv with
  | None => Panic NilDereference
  | Some o =>
      let w' := mkWorld (handles w)
                        (log w ++ [EvAddCommand recv name short long data]) in
      match scan data with
      | Some err => Ok (w', (None, Some err))
      | None =>
          let h := length (handles w) in
          Ok (mkWorld (<[recv := flags.add_command h o]>
                         (handles w
                          ++ [flags.mk name short long (Some data)
                                       false false [] [] 0]))
                      (log w'),
              (Some h, None))
      end
  end.

(** The body of the closure [spawner] of [AddCommand]; a [commandParser] is
    any go-flags object one can add a command to. *)
Definition run_spawner (sp : Spawner) (cmdParser : haddr) (subOptional : bool)
  (w : World) : result (World * option haddr) :=
  '(w1, (cmd, err)) ← flags_AddCommand w cmdParser (sp_name sp) (sp_short sp)
                         (sp_long sp) (sp_data sp tt);
  let w2 := match err with
            | Some e => mkWorld (handles w1) (log w1 ++ [EvPrintf e])
            | None => w1
            end in
  match cmd with
  | None => Ok (w2, None)
  | Some h =>
      if subOptional then
        match handles w2 !! h with
        | None => Panic NilDereference
        | Some o =>
            Ok (mkWorld (<[h := flags.set_SubcommandsOptional true o]> (handles w2))
                        (log w2),
                Some h)
        end
      else Ok (w2, Some h)
  end.

(** [cmd.cmd = h] for the node at [p]. *)
Definition store_handle (p : addr) (h : option haddr) (s : Store) : Store :=
  mkStore (alter (Command.set_cmd h) p (commands s)) (arrays s).

(** Modelled from the spec: [bindCommandGroup] is not among the sources.  Step 3
    of the rebuild, for one group: for each node in order, its generator is
    run against the parent handle with the node's [SubcommandsOptional], the
    resulting handle is stored back onto the node, and the node's own groups
    are generated with that handle as parent; a node whose generation fails is
    skipped with its descendants, and its siblings are still generated.  The
    recursion follows pointers; [fuel] bounds its depth. *)
Fixpoint bindCommandGroup (fuel : nat) (parent : haddr) (grp : commandGroup.t)
  (c : Console.t) : result Console.t :=
  match fuel with
  | 0 => OutOfFuel
  | S fuel' =>
      foldM (fun c p =>
               n ← deref (Console.store c) p;
               match Command.generator n with
               | None => Panic NilDereference
               | Some sp =>
                   '(w, h) ← run_spawner sp parent (Command.SubcommandsOptional n)
                               (Console.world c);
                   let c1 := Console.set_world w
                               (Console.set_store
                                  (store_handle p h (Console.store c)) c) in
                   match h with
                   | None => Ok c1
                   | Some hh =>
                       foldM (fun c sub => bindCommandGroup fuel' hh sub c)
                             (Command.groups n) c1
                   end
               end)
            (commandGroup.cmds grp) c
  end.

(** The body of the loop over [cc.cmd.opts]:
    [cc.parser.AddGroup(opt.short, opt.long, opt.generator())]. *)
Definition bindOptionGroup (c : Console.t) (opt : optionGroup.t)
  : result Console.t :=
  match Context.parser (Console.current c) with
  | None => Panic NilDereference
  | Some parser =>
      w ← flags_AddGroup (Console.world c) parser
            (optionGroup.short opt) (optionGroup.long opt)
            (optionGroup.generator opt tt);
      Ok (Console.set_world w c)
  end.

(** The body of the loop over [cc.cmd.groups]:
    [c.bindCommandGroup(cc.parser, group)]. *)
Definition bindRootGroup (fuel : nat) (c : Console.t) (group : commandGroup.t)
  : result Console.t :=
  match Context.parser (Console.current c) with
  | None => Panic NilDereference
  | Some parser => bindCommandGroup fuel parser group c
  end.

(** [Console.bindCommands] *)
Definition bindCommands (fuel : nat) (c : Console.t) : result Console.t :=
  let c1 := initParser c (Console.parserOpts c) in
  root ← deref (Console.store c1) (Context.cmd (Console.current c1));
  c2 ← foldM bindOptionGroup (Command.opts root) c1;
  root ← deref (Console.store c2) (Context.cmd (Console.current c2));
  c3 ← foldM (bindRootGroup fuel) (Command.groups root) c2;
  hideCommands c3.

End GoFlags.

(** ** Loading a configuration *)

Section Reload.

(** The escape sequences [readline.BOLD] and [readline.FOREWHITE] of the
    readline library. *)
Variables BOLD FOREWHITE : string.

(** [Prompt.loadFromConfig] is not among the sources: whatever it does with
    the (possibly nil) entry it is given. *)
Variable loadFromConfig : Prompt.t -> option PromptConfig.t -> result Prompt.t.

Definition default_highlighting : gmap string string :=
  <["{hint-text}" := "\033[38;5;248m"]>
    (<["{option-argument}" := FOREWHITE]>
       (<["{option}" := BOLD]>
          (<["{command-argument}" := FOREWHITE]>
             (<["{command}" := BOLD]> ∅)))).

(** [NewDefaultConfig]: the map of prompts is empty, not nil. *)
Definition NewDefaultConfig : Config.t :=
  Config.mk InputVim (Some ∅) true 50 (Some default_highlighting).

(** [newDefaultPromptConfig] *)
Definition newDefaultPromptConfig (menu : string) : PromptConfig.t :=
  PromptConfig.mk ("gonsole (" +:+ menu +:+ ")") "" true true " > ".

(** [c.config.Prompts[c.current.Name]]: reading a nil map yields nil too. *)
Definition prompt_entry (conf : Config.t) (name : string) : option PromptConfig.t :=
  match Config.Prompts conf with
  | None => None
  | Some prompts => prompts !! name
  end.

(** A field read through a [*PromptConfig]. *)
Definition deref_prompt (p : option PromptConfig.t) : result PromptConfig.t :=
  match p with
  | Some pc => Ok pc
  | None => Panic NilDereference
  end.

(** [Console.reloadConfig]; the read lock it holds changes nothing for a single
    caller. *)
Definition reloadConfig (c : Console.t) : result Console.t :=
  conf ← match Console.config c with
          | Some conf => Ok conf
          | None => Panic NilDereference
          end;
  let name := Context.Name (Console.current c) in
  p ← loadFromConfig (Context.Prompt (Console.current c)) (prompt_entry conf name);
  let c := Console.set_current (Context.set_Prompt p (Console.current c)) c in
  e1 ← deref_prompt (prompt_entry conf name);
  let c := Console.set_shell
             (Shell.mk (PromptConfig.MultilinePrompt e1)
                       (Shell.Multiline (Console.shell c))
                       (Shell.InputMode (Console.shell c))) c in
  e2 ← deref_prompt (prompt_entry conf name);
  let c := Console.set_shell
             (Shell.mk (Shell.MultilinePrompt (Console.shell c))
                       (PromptConfig.Multiline e2)
                       (Shell.InputMode (Console.shell c))) c in
  e3 ← deref_prompt (prompt_entry conf name);
  let c := Console.set_PreOutputNewline (PromptConfig.Newline e3) c in
  let mode := if String.eqb (Config.InputMode conf) InputEmacs
              then readline_Emacs else readline_Vim in
  Ok (Console.set_shell
        (Shell.mk (Shell.MultilinePrompt (Console.shell c))
                  (Shell.Multiline (Console.shell c)) mode) c).

(** [Console.LoadConfig] *)
Definition LoadConfig (c : Console.t) (conf : option Config.t) : result Console.t :=
  match conf with
  | None => Ok c
  | Some conf =>
      let conf :=
        match Config.Prompts conf with
        | None =>
            let p := PromptConfig.mk "gonsole" "" true true " > " in
            Config.set_Prompts (Some (<["" := p]> ∅)) conf
        | Some _ => conf
        end in
      let conf :=
        match Config.Highlighting conf with
        | None => Config.set_Highlighting (Some default_highlighting) conf
        | Some _ => conf
        end in
      reloadConfig (Console.set_config (Some conf) c)
  end.

(** [Console.loadDefaultConfig] *)
Definition loadDefaultConfig (c : Console.t) : Console.t :=
  let conf := NewDefaultConfig in
  Console.set_config
    (Some (Config.set_Prompts
             (match Config.Prompts conf with
              | Some prompts => Some (<["" := newDefaultPromptConfig ""]> prompts)
              | None => None
              end) conf)) c.

End Reload.

(** ** Fixtures *)

(** A console as it is after creation: one context named [""] whose root
    command is a [newCommand], no filter, no configuration loaded. *)
Definition console0 : Console.t :=
  Console.mk (mkStore [newCommand] []) (mkWorld [] [])
             (Context.mk "" 0 None (Prompt.mk "" "")) [] 0 None
             (Shell.mk "" false readline_Vim) false.

(** A slice literal [[]string{...}]: a fresh backing array and a header over
    all of it. *)
Definition alloc_slice (elems : list string) (s : Store) : Store * option slice :=
  (mkStore (commands s) (arrays s ++ [elems]),
   Some (mkSlice (length (arrays s)) 0 (length elems))).

(** A filter set built through the API, then a removal: [HideCommands("")],
    [HideCommands("a")], [ShowCommands("")]. *)
Definition show_empty_tag : result Console.t :=
  Console_ShowCommands
    (Console_HideCommands (Console_HideCommands console0 "") "a") "".

(** A console whose current context is named [ops]. *)
Definition console_ops : Console.t :=
  Console.set_current (Context.mk "ops" 0 None (Prompt.mk "" "")) console0.

(** ** Vocabulary of the statements *)

(** The pointer refers to an allocated command. *)
Definition valid (s : Store) (p : addr) : Prop := is_Some (commands s !! p).

(** The node at [p] carries the name. *)
Definition has_name (s : Store) (name : string) (p : addr) : bool :=
  match commands s !! p with
  | Some n => String.eqb (Command.Name n) name
  | None => false
  end.

(** The generated handle of the node at [p], nil included. *)
Definition handle_of (s : Store) (p : addr) : option haddr :=
  commands s !! p ≫= Command.cmd.

(** Group names in the order in which each is seen for the first time. *)
Definition first_seen_step (seen : list string) (g : string) : list string :=
  if decide (g ∈ seen) then seen else seen ++ [g].

Definition first_seen (names : list string) : list string :=
  fold_left first_seen_step names [].

(** The arguments of one successful call of [AddCommand]. *)
Record call := mkCall {
  c_name : string; c_short : string; c_long : string; c_group : string;
  c_filters : option slice; c_data : DataFactory }.

(** A sequence of calls on one receiver, with the pointers they return. *)
Fixpoint AddCommands (s : Store) (c : addr) (calls : list call)
  : result (Store * list (option addr)) :=
  match calls with
  | [] => Ok (s, [])
  | k :: rest =>
      '(s1, r) ← Command_AddCommand s c (c_name k) (c_short k) (c_long k)
                   (c_group k) (c_filters k) (Some (c_data k));
      '(s2, rs) ← AddCommands s1 c rest;
      Ok (s2, r :: rs)
  end.

(** The pointers returned by the calls made under group [g], in call order. *)
Definition in_group (g : string) (kps : list (string * addr)) : list addr :=
  omap (fun '(g', p) => if decide (g' = g) then Some p else None) kps.

(** What one call does to the groups of the receiver. *)
Definition add_to_groups (gs : list commandGroup.t) (group : string) (p : addr)
  : list commandGroup.t :=
  match find_group gs group 0 None with
  | Some i => alter (commandGroup.push p) i gs
  | None => gs ++ [commandGroup.mk group [p]]
  end.

(** The node [AddCommand] allocates: the five descriptive arguments, the
    spawner closed over name, descriptions and data factory, and nothing
    else: no [Data], no handle, no groups, no options, four empty maps. *)
Definition attached_node (name short long group : string)
  (filters : option slice) (data : DataFactory) : Command.t :=
  Command.mk name short long group filters false None
             (Some (mkSpawner name short long data))
             None [] [] (Some ∅) (Some ∅) (Some ∅) (Some ∅).


(** The pointers held under a group name. *)
Definition cmds_of (gs : list commandGroup.t) (name : string) : list addr :=
  concat (commandGroup.cmds <$> filter (fun g => commandGroup.Name g = name) gs).

Definition add_call (gs : list commandGroup.t) (kp : string * addr)
  : list commandGroup.t :=
  add_to_groups gs kp.1 kp.2.



(** The value of a computation that returns. *)
Definition returned {A : Type} (d : A) (r : result A) : A :=
  match r with
  | Ok a => a
  | _ => d
  end.

(** A go-flags that accepts every instance. *)
Definition always_scans : Instance -> option string := fun _ => None.

(** The scenario of the spec, on the default context: a root command [status]
    in group [""] without filter tags and a root command [drain] in group
    [admin] tagged [dangerous]. *)
Definition register_ops : result Console.t :=
  '(c1, _) ← Console_AddCommand console0 "status" "" "" "" None
               (Some (fun _ => 1));
  let '(s, tags) := alloc_slice ["dangerous"] (Console.store c1) in
  '(c2, _) ← Console_AddCommand (Console.set_store s c1) "drain" "" "" "admin"
               tags (Some (fun _ => 2));
  Ok c2.

Definition console_ops_tree : Console.t := returned console0 register_ops.

(** A root command [a] without filter tags, below it a subcommand [b] tagged
    [w]; then [HideCommands("w")] and one rebuild. *)
Definition register_nested : result Console.t :=
  '(c1, a) ← Console_AddCommand console0 "a" "" "" "" None (Some (fun _ => 1));
  match a with
  | None => Panic NilDereference
  | Some a =>
      let '(s, tags) := alloc_slice ["w"] (Console.store c1) in
      '(s2, _) ← Command_AddCommand s a "b" "" "" "" tags (Some (fun _ => 2));
      Ok (Console_HideCommands (Console.set_store s2 c1) "w")
  end.

Definition console_nested : Console.t := returned console0 register_nested.

Definition rebuild_nested : result Console.t :=
  bindCommands always_scans 4 console_nested.

(** The same with the tag on the root command [a] as well. *)
Definition register_both_tagged : result Console.t :=
  let '(s, tags) := alloc_slice ["w"] (Console.store console0) in
  '(c1, a) ← Console_AddCommand (Console.set_store s console0) "a" "" "" ""
               tags (Some (fun _ => 1));
  match a with
  | None => Panic NilDereference
  | Some a =>
      '(s2, _) ← Command_AddCommand (Console.store c1) a "b" "" "" "" tags
                   (Some (fun _ => 2));
      Ok (Console_HideCommands (Console.set_store s2 c1) "w")
  end.

(** Three calls under two groups, the first group used again by the third. *)
Definition three_calls : list call :=
  [mkCall "x" "" "" "g1" None (fun _ => 1);
   mkCall "y" "" "" "g2" None (fun _ => 2);
   mkCall "z" "" "" "g1" None (fun _ => 3)].

(** Every child pointer of every node was allocated after its parent and
    refers to a node with a generator, as the nodes made by [AddCommand] are. *)
Definition tree_ok (nodes : list Command.t) : Prop :=
  ∀ p n, nodes !! p = Some n →
    Forall (fun q => p < q ∧ ∃ m, nodes !! q = Some m
                                 ∧ is_Some (Command.generator m))
           (Command.children n).

(** The handle of every node refers to an object go-flags has handed out. *)
Definition handles_ok (c : Console.t) : Prop :=
  ∀ p n h, commands (Console.store c) !! p = Some n → Command.cmd n = Some h →
           h < length (handles (Console.world c)).



Definition is_hiding (e : event) : Prop :=
  match e with
  | EvSetHidden _ => True
  | _ => False
  end.



(** What the visibility pass may change. *)
Definition hidden_pass (c0 c : Console.t) : Prop :=
  Console.store c = Console.store c0
  ∧ Console.current c = Console.current c0
  ∧ Console.filters c = Console.filters c0
  ∧ length (handles (Console.world c)) = length (handles (Console.world c0))
  ∧ ∃ evs, log (Console.world c) = log (Console.world c0) ++ evs
           ∧ Forall is_hiding evs.

(** The node at [p] holds the handle [h] and one of its filter tags is in the
    filter set of the console. *)
Definition marks (c : Console.t) (h : haddr) (p : addr) : bool :=
  match commands (Console.store c) !! p with
  | Some n =>
      bool_decide (Command.cmd n = Some h)
      && filters_match (Console.filters c)
                       (slice_elems (Console.store c) (Command.Filters n))
  | None => false
  end.




(** The scenario of [register_ops] after one rebuild, with the tag
    [dangerous] hidden afterwards: the next visibility pass has one handle to
    mark. *)
Definition rebuilt_ops : Console.t :=
  Console_HideCommands
    (returned console0 (bindCommands always_scans 4 console_ops_tree))
    "dangerous".

(** [Console.GetConfig] *)
Definition GetConfig (c : Console.t) : option Config.t := Console.config c.

(** A [loadFromConfig] for the examples: it reads the two templates through
    the entry it is given. *)
Definition load_templates (p : Prompt.t) (e : option PromptConfig.t)
  : result Prompt.t :=
  match e with
  | Some e => Ok (Prompt.mk (PromptConfig.Left e) (PromptConfig.Right e))
  | None => Panic NilDereference
  end.

(** The input mode [reloadConfig] selects. *)
Definition mode_of (conf : Config.t) : readline_InputMode :=
  if decide (Config.InputMode conf = InputEmacs) then readline_Emacs
  else readline_Vim.

(** What [conf] points to once [LoadConfig] has run its two nil checks. *)
Definition nil_maps_filled (BOLD FOREWHITE : string) (conf : Config.t) : Config.t :=
  Config.mk (Config.InputMode conf)
            (Some (default (<["" := PromptConfig.mk "gonsole" "" true true " > "]> ∅)
                           (Config.Prompts conf)))
            (Config.Hints conf) (Config.MaxTabCompleterRows conf)
            (Some (default (default_highlighting BOLD FOREWHITE)
                           (Config.Highlighting conf))).

(** * Properties *)

(** ** The filter set *)

Lemma HideCommands_range_spec fs filter :
  HideCommands_range fs filter = true ↔ filter ∈ fs.
Proof.
  induction fs as [|f fs IH]; simpl.
  - split; [discriminate | intros H; inversion H].
  - destruct (String.eqb_spec f filter) as [->|Hne].
    + split; [intros _; left | done].
    + rewrite IH. split; [by right |].
      intros H. inversion H; subst; [done | assumption].
Qed.

Lemma HideCommands_spec fs filter :
  HideCommands fs filter = if decide (filter ∈ fs) then fs else fs ++ [filter].
Proof.
  unfold HideCommands.
  destruct (HideCommands_range fs filter) eqn:E; case_decide; try done.
  - apply HideCommands_range_spec in E. done.
  - apply HideCommands_range_spec in H. congruence.
Qed.

Lemma set_filters_same c : Console.set_filters (Console.filters c) c = c.
Proof. by destruct c. Qed.

Lemma set_store_same c : Console.set_store (Console.store c) c = c.
Proof. by destruct c. Qed.

(** C5. [HideCommands] is an idempotent add: with the tag already in the filter
    set the console is left exactly as it was, otherwise the tag is appended
    once at the end; a second call with the same tag changes nothing. *)
Theorem HideCommands_idempotent (c : Console.t) (tag : string) :
  (if decide (tag ∈ Console.filters c)
   then Console_HideCommands c tag = c
   else Console.filters (Console_HideCommands c tag) = Console.filters c ++ [tag])
  ∧ Console_HideCommands (Console_HideCommands c tag) tag
    = Console_HideCommands c tag.
Proof.
  unfold Console_HideCommands. split.
  - rewrite HideCommands_spec. case_decide; simpl.
    + apply set_filters_same.
    + done.
  - destruct c as [s w cur fs po conf sh nl].
    unfold Console.set_filters; simpl. f_equal.
    rewrite !HideCommands_spec.
    destruct (decide (tag ∈ fs)) as [Hin|Hin].
    + by rewrite decide_True.
    + rewrite decide_True; [done |]. apply elem_of_app. right. by left.
Qed.

(** C6, at the failing input.  With the filter set [""; "a"] (built by two
    calls of [HideCommands]), [ShowCommands("")] removes the tag at index 0 and
    then meets, at index 1 of the array it ranges over, the cell it has just
    erased to [""]: it matches again and [c.filters[i+1:]] is out of bounds. *)
Theorem ShowCommands_empty_tag_panics :
  Console.filters (Console_HideCommands (Console_HideCommands console0 "") "a")
  = [""; "a"]
  ∧ show_empty_tag = Panic SliceBoundsOutOfRange.
Proof. split; reflexivity. Qed.

(** ** Adding commands *)

(** C2. [AddCommand] with a nil data factory returns nil and leaves the whole
    store as it was, whatever the receiver and the other arguments are: no
    group is created and no node is allocated or appended.  The same holds
    through the console. *)
Theorem AddCommand_nil_data (s : Store) (c : addr) (name short long group : string)
  (filters : option slice) (k : Console.t) :
  Command_AddCommand s c name short long group filters None = Ok (s, None)
  ∧ Console_AddCommand k name short long group filters None = Ok (k, None).
Proof.
  split; [reflexivity |].
  unfold Console_AddCommand. simpl. by rewrite set_store_same.
Qed.

(** ** Loading a configuration *)

(** C8, at two failing inputs.  [LoadConfig(NewDefaultConfig())] on a fresh
    console does not return: the map of prompts is empty, the entry of the
    current context [""] is nil, and [reloadConfig] reads a field through it.
    With a nil map of prompts only the entry [""] is installed, so the same
    happens in a context of any other name.  This holds whatever
    [loadFromConfig] does. *)
Theorem LoadConfig_missing_prompt_entry (BOLD FOREWHITE : string)
  (loadFromConfig : Prompt.t -> option PromptConfig.t -> result Prompt.t)
  (k : Console.t) :
  LoadConfig BOLD FOREWHITE loadFromConfig console0
    (Some (NewDefaultConfig BOLD FOREWHITE)) ≠ Ok k
  ∧ LoadConfig BOLD FOREWHITE loadFromConfig console_ops
      (Some (Config.mk InputVim None true 50 None)) ≠ Ok k.
Proof.
  split.
  - unfold LoadConfig, reloadConfig, console0, NewDefaultConfig; simpl.
    unfold prompt_entry; simpl. rewrite lookup_empty.
    destruct (loadFromConfig _ _); simpl; discriminate.
  - unfold LoadConfig, reloadConfig, console_ops, console0; simpl.
    unfold prompt_entry; simpl.
    rewrite lookup_insert_ne by discriminate. rewrite lookup_empty.
    destruct (loadFromConfig _ _); simpl; discriminate.
Qed.

(** ** Lookup and listing *)

Lemma deref_lookup s p n : commands s !! p = Some n → deref s p = Ok n.
Proof. unfold deref. by intros ->. Qed.

Lemma deref_valid s p : valid s p → ∃ n, commands s !! p = Some n ∧ deref s p = Ok n.
Proof. intros [n Hn]. exists n. split; [done | by apply deref_lookup]. Qed.

Lemma has_name_lookup s name p n :
  commands s !! p = Some n → has_name s name p = String.eqb (Command.Name n) name.
Proof. unfold has_name. by intros ->. Qed.

Lemma handle_of_lookup s p n :
  commands s !! p = Some n → handle_of s p = Command.cmd n.
Proof. unfold handle_of. by intros ->. Qed.

Lemma find_in_cmds_spec s ps name :
  Forall (valid s) ps →
  find_in_cmds s ps name = Ok (find (has_name s name) ps).
Proof.
  induction 1 as [|p ps Hp _ IH]; simpl; [done |].
  destruct (deref_valid _ _ Hp) as (n & Hn & ->); simpl.
  rewrite (has_name_lookup _ _ _ _ Hn).
  by destruct (String.eqb _ _).
Qed.

Lemma find_app_first {A} (f : A → bool) l1 l2 :
  find f (l1 ++ l2) = match find f l1 with Some x => Some x | None => find f l2 end.
Proof. induction l1 as [|x l1 IH]; simpl; [done |]. by destruct (f x). Qed.

Lemma find_in_groups_spec s gs name :
  Forall (valid s) (concat (commandGroup.cmds <$> gs)) →
  find_in_groups s gs name
  = Ok (find (has_name s name) (concat (commandGroup.cmds <$> gs))).
Proof.
  induction gs as [|g gs IH]; simpl; [done |].
  intros [Hg Hgs]%Forall_app.
  rewrite (find_in_cmds_spec _ _ _ Hg); simpl.
  rewrite find_app_first.
  destruct (find _ (commandGroup.cmds g)); [done | by apply IH].
Qed.

Lemma find_first_match {A} (f : A → bool) l :
  match find f l with
  | Some x => ∃ before after,
      l = before ++ x :: after ∧ f x = true ∧ Forall (fun y => f y = false) before
  | None => Forall (fun y => f y = false) l
  end.
Proof.
  induction l as [|y l IH]; simpl; [constructor |].
  destruct (f y) eqn:E.
  - exists [], l. by repeat split.
  - destruct (find f l) as [x|].
    + destruct IH as (before & after & -> & Hx & Hb).
      exists (y :: before), after. repeat split; [done | by constructor].
    + by constructor.
Qed.

(** C4. [Console.FindCommand] looks only at the children of the current
    context's root command, flattened group after group: it returns the first
    of them that carries the name, so every child before it carries another
    name, and it returns nil, without failing, when none of them carries it,
    as in a context without commands. *)
Theorem Console_FindCommand_first_match (c : Console.t) (name : string)
  (root : Command.t) :
  commands (Console.store c) !! Context.cmd (Console.current c) = Some root →
  Forall (valid (Console.store c)) (Command.children root) →
  ∃ r, Console_FindCommand c name = Ok r
       ∧ match r with
         | Some p => ∃ before after,
             Command.children root = before ++ p :: after
             ∧ has_name (Console.store c) name p = true
             ∧ Forall (fun q => has_name (Console.store c) name q = false) before
         | None =>
             Forall (fun q => has_name (Console.store c) name q = false)
                    (Command.children root)
         end
       ∧ (Command.groups root = [] → r = None).
Proof.
  intros Hroot Hvalid.
  exists (find (has_name (Console.store c) name) (Command.children root)).
  split; [| split].
  - unfold Console_FindCommand. rewrite (deref_lookup _ _ _ Hroot); simpl.
    by apply find_in_groups_spec.
  - apply find_first_match.
  - unfold Command.children. by intros ->.
Qed.

(** The subcommand [b] of the root command [a] is found from [a], not from the
    console. *)
Example FindCommand_root_level_only :
  Console_FindCommand console_nested "b" = Ok None
  ∧ Command_FindCommand (Console.store console_nested) 1 "b" = Ok (Some 2).
Proof. split; reflexivity. Qed.

Lemma GetCommands_cmds s name ps (m : gmap string (list (option haddr))) :
  Forall (valid s) ps →
  ∃ m',
    foldM (fun (groups : gmap string (list (option haddr))) p =>
             n ← deref s p;
             Ok (<[name := default [] (groups !! name) ++ [Command.cmd n]]> groups))
          ps m = Ok m'
    ∧ ∀ k, default [] (m' !! k)
           = default [] (m !! k)
             ++ (if decide (name = k) then handle_of s <$> ps else []).
Proof.
  intros Hps. revert m. induction Hps as [|p ps Hp _ IH]; intros m; simpl.
  - exists m. split; [done |]. intros k. case_decide; by rewrite app_nil_r.
  - destruct (deref_valid _ _ Hp) as (n & Hn & ->); simpl.
    destruct (IH (<[name := default [] (m !! name) ++ [Command.cmd n]]> m))
      as (m' & -> & Hm').
    exists m'. split; [done |]. intros k. rewrite Hm'.
    simpl. rewrite (handle_of_lookup _ _ _ Hn).
    destruct (decide (name = k)) as [->|Hne].
    + rewrite lookup_insert_eq; simpl. by rewrite <- app_assoc.
    + by rewrite lookup_insert_ne.
Qed.

Lemma GetCommands_groups s gs (m : gmap string (list (option haddr))) names :
  Forall (valid s) (concat (commandGroup.cmds <$> gs)) →
  ∃ m',
    foldM (fun '(groups, groupNames) group =>
             let groupNames := groupNames ++ [commandGroup.Name group] in
             groups ← foldM (fun (groups : gmap string (list (option haddr))) p =>
                               n ← deref s p;
                               Ok (<[commandGroup.Name group :=
                                       default [] (groups !! commandGroup.Name group)
                                       ++ [Command.cmd n]]> groups))
                            (commandGroup.cmds group) groups;
             Ok (groups, groupNames))
          gs (m, names) = Ok (m', names ++ (commandGroup.Name <$> gs))
    ∧ ∀ k, default [] (m' !! k)
           = default [] (m !! k)
             ++ concat ((fun g => handle_of s <$> commandGroup.cmds g)
                        <$> filter (fun g => commandGroup.Name g = k) gs).
Proof.
  revert m names. induction gs as [|g gs IH]; intros m names; simpl.
  - intros _. exists m. split; [by rewrite app_nil_r |].
    intros k. by rewrite app_nil_r.
  - intros [Hg Hgs]%Forall_app.
    destruct (GetCommands_cmds s (commandGroup.Name g) _ m Hg) as (m1 & -> & Hm1).
    simpl.
    destruct (IH m1 (names ++ [commandGroup.Name g]) Hgs) as (m' & Hrun & Hm').
    exists m'. split; [rewrite <- app_assoc in Hrun; exact Hrun |].
    intros k. rewrite Hm', Hm1.
    destruct (decide (commandGroup.Name g = k)) as [Hk|Hk].
    + rewrite filter_cons_True by done. simpl. by rewrite <- app_assoc.
    + rewrite filter_cons_False by done. by rewrite app_nil_r.
Qed.

Lemma GoFlagsCommands_cmds s ps acc :
  Forall (valid s) ps →
  foldM (fun cmds p =>
           n ← deref s p;
           match Command.cmd n with
           | Some h => Ok (cmds ++ [h])
           | None => Ok cmds
           end) ps acc
  = Ok (acc ++ omap (handle_of s) ps).
Proof.
  intros Hps. revert acc. induction Hps as [|p ps Hp _ IH]; intros acc; simpl.
  - by rewrite app_nil_r.
  - destruct (deref_valid _ _ Hp) as (n & Hn & ->); simpl.
    rewrite (handle_of_lookup _ _ _ Hn).
    destruct (Command.cmd n); simpl; rewrite IH; [by rewrite <- app_assoc | done].
Qed.

Lemma GoFlagsCommands_groups s gs acc :
  Forall (valid s) (concat (commandGroup.cmds <$> gs)) →
  foldM (fun cmds group =>
           foldM (fun cmds p =>
                    n ← deref s p;
                    match Command.cmd n with
                    | Some h => Ok (cmds ++ [h])
                    | None => Ok cmds
                    end)
                 (commandGroup.cmds group) cmds)
        gs acc
  = Ok (acc ++ omap (handle_of s) (concat (commandGroup.cmds <$> gs))).
Proof.
  revert acc. induction gs as [|g gs IH]; intros acc; simpl.
  - by rewrite app_nil_r.
  - intros [Hg Hgs]%Forall_app.
    rewrite (GoFlagsCommands_cmds _ _ _ Hg); simpl.
    rewrite (IH _ Hgs), omap_app. by rewrite <- app_assoc.
Qed.

Lemma filter_none {A} (P : A → Prop) `{∀ x, Decision (P x)} (l : list A) :
  Forall (fun x => ¬ P x) l → filter P l = [].
Proof.
  induction 1 as [|x l Hx _ IH]; [done |]. by rewrite filter_cons_False.
Qed.

Lemma filter_unique_name (gs : list commandGroup.t) g :
  NoDup (commandGroup.Name <$> gs) → g ∈ gs →
  filter (fun g' => commandGroup.Name g' = commandGroup.Name g) gs = [g].
Proof.
  induction gs as [|g0 gs IH]; simpl; [by intros _ ?%elem_of_nil |].
  intros [Hnotin Hnd]%NoDup_cons [->|Hin]%elem_of_cons.
  - rewrite filter_cons_True by done. f_equal.
    apply filter_none, Forall_forall. intros g' Hg' Heq.
    apply Hnotin. rewrite <- Heq. by apply list_elem_of_fmap_2.
  - rewrite filter_cons_False; [by apply IH |].
    intros Heq. apply Hnotin. rewrite Heq. by apply list_elem_of_fmap_2.
Qed.

(** C10. [Console.GetCommands] lists the group names in order and, under each
    name, the handle field of every root-level command of the groups of that
    name, a nil handle being an entry like any other; so with distinct group
    names each group contributes exactly one entry per command.
    [Command.GoFlagsCommands] on the same root returns the non-nil handles
    only. *)
Theorem Console_GetCommands_keeps_nil_handles (c : Console.t) (root : Command.t) :
  commands (Console.store c) !! Context.cmd (Console.current c) = Some root →
  Forall (valid (Console.store c)) (Command.children root) →
  ∃ groups,
    Console_GetCommands c
    = Ok (groups, commandGroup.Name <$> Command.groups root)
    ∧ (∀ name, default [] (groups !! name)
               = concat ((fun g => handle_of (Console.store c)
                                     <$> commandGroup.cmds g)
                         <$> filter (fun g => commandGroup.Name g = name)
                                    (Command.groups root)))
    ∧ (NoDup (commandGroup.Name <$> Command.groups root) →
       ∀ g, g ∈ Command.groups root →
            default [] (groups !! commandGroup.Name g)
            = handle_of (Console.store c) <$> commandGroup.cmds g)
    ∧ Command_GoFlagsCommands (Console.store c) (Context.cmd (Console.current c))
      = Ok (omap (handle_of (Console.store c)) (Command.children root)).
Proof.
  intros Hroot Hvalid.
  destruct (GetCommands_groups (Console.store c) (Command.groups root) ∅ [] Hvalid)
    as (groups & Hrun & Hgroups).
  exists groups. split; [| split; [| split]].
  - unfold Console_GetCommands. rewrite (deref_lookup _ _ _ Hroot); simpl.
    exact Hrun.
  - intros name. rewrite Hgroups, lookup_empty. done.
  - intros Hnd g Hg. rewrite Hgroups, lookup_empty; simpl.
    rewrite (filter_unique_name _ _ Hnd Hg); simpl. by rewrite app_nil_r.
  - unfold Command_GoFlagsCommands. rewrite (deref_lookup _ _ _ Hroot); simpl.
    by rewrite (GoFlagsCommands_groups _ _ _ Hvalid).
Qed.

(** ** The effect of [AddCommand] on the tree *)

Lemma find_group_snoc gs g group i acc :
  find_group (gs ++ [g]) group i acc
  = if String.eqb (commandGroup.Name g) group then Some (i + length gs)
    else find_group gs group i acc.
Proof.
  revert i acc. induction gs as [|g0 gs IH]; intros i acc; simpl.
  - by rewrite Nat.add_0_r.
  - rewrite IH. by replace (S i + length gs) with (i + S (length gs)) by lia.
Qed.

(** The group [find_group] selects is the last one of that name. *)
Lemma find_group_last gs group :
  match find_group gs group 0 None with
  | Some j => ∃ l1 g l2,
      gs = l1 ++ g :: l2 ∧ length l1 = j ∧ commandGroup.Name g = group
      ∧ group ∉ commandGroup.Name <$> l2
  | None => group ∉ commandGroup.Name <$> gs
  end.
Proof.
  induction gs as [|g0 gs IH] using rev_ind; simpl.
  - apply not_elem_of_nil.
  - rewrite find_group_snoc.
    destruct (String.eqb_spec (commandGroup.Name g0) group) as [Heq|Hne].
    + exists gs, g0, []. repeat split; [done | apply not_elem_of_nil].
    + destruct (find_group gs group 0 None) as [j|].
      * destruct IH as (l1 & g & l2 & -> & Hl & Hg & Hnotin).
        exists l1, g, (l2 ++ [g0]). split; [by rewrite <- app_assoc |].
        repeat split; try done. rewrite fmap_app.
        intros [?|Hin%list_elem_of_singleton]%elem_of_app; [done |].
        simpl in Hin. congruence.
      * rewrite fmap_app.
        intros [?|Hin%list_elem_of_singleton]%elem_of_app; [done |].
        simpl in Hin. congruence.
Qed.

Lemma alter_middle {A} (f : A → A) l1 x l2 :
  alter f (length l1) (l1 ++ x :: l2) = l1 ++ f x :: l2.
Proof.
  replace (length l1) with (length l1 + 0) by lia. by rewrite alter_app_r.
Qed.

Lemma add_to_groups_names gs group p :
  commandGroup.Name <$> add_to_groups gs group p
  = first_seen_step (commandGroup.Name <$> gs) group.
Proof.
  unfold add_to_groups, first_seen_step.
  pose proof (find_group_last gs group) as H.
  destruct (find_group gs group 0 None) as [j|].
  - destruct H as (l1 & g & l2 & -> & <- & Hg & _).
    rewrite alter_middle, !fmap_app, !fmap_cons. simpl.
    rewrite decide_True; [done |].
    apply elem_of_app. right. rewrite Hg. by left.
  - rewrite decide_False by done. by rewrite fmap_app.
Qed.

Lemma add_to_groups_cmds gs group p name :
  cmds_of (add_to_groups gs group p) name
  = cmds_of gs name ++ (if decide (group = name) then [p] else []).
Proof.
  unfold add_to_groups, cmds_of.
  pose proof (find_group_last gs group) as H.
  destruct (find_group gs group 0 None) as [j|].
  - destruct H as (l1 & g & l2 & -> & <- & Hg & Hlast).
    rewrite alter_middle, !filter_app, !filter_cons. simpl. rewrite Hg.
    destruct (decide (group = name)) as [->|Hne].
    + rewrite (filter_none _ l2).
      * rewrite !fmap_app, !concat_app. simpl.
        rewrite !app_nil_r. by rewrite <- !app_assoc.
      * apply Forall_forall. intros g' Hg' Heq. apply Hlast.
        rewrite <- Heq. by apply list_elem_of_fmap_2.
    + by rewrite app_nil_r.
  - rewrite filter_app, filter_cons, filter_nil. simpl.
    destruct (decide (group = name)) as [->|Hne].
    + rewrite fmap_app, concat_app. simpl. done.
    + by rewrite !app_nil_r.
Qed.

Lemma add_calls_spec kps gs :
  commandGroup.Name <$> fold_left add_call kps gs
  = fold_left first_seen_step kps.*1 (commandGroup.Name <$> gs)
  ∧ ∀ name, cmds_of (fold_left add_call kps gs) name
            = cmds_of gs name ++ in_group name kps.
Proof.
  revert gs. induction kps as [|[g p] kps IH]; intros gs; simpl.
  - split; [done |]. intros name. by rewrite app_nil_r.
  - destruct (IH (add_call gs (g, p))) as [Hnames Hcmds]. split.
    + rewrite Hnames. unfold add_call. simpl. by rewrite add_to_groups_names.
    + intros name. rewrite Hcmds. unfold add_call. simpl.
      rewrite add_to_groups_cmds, <- app_assoc. f_equal.
      unfold in_group. simpl. by destruct (decide (g = name)).
Qed.

Lemma first_seen_step_NoDup seen g : NoDup seen → NoDup (first_seen_step seen g).
Proof.
  intros Hnd. unfold first_seen_step. case_decide; [done |].
  apply NoDup_app. repeat split; [done | | apply NoDup_singleton].
  intros x Hx ->%list_elem_of_singleton. done.
Qed.

Lemma first_seen_from_NoDup names seen :
  NoDup seen → NoDup (fold_left first_seen_step names seen).
Proof.
  revert seen. induction names as [|g names IH]; intros seen Hnd; simpl; [done |].
  by apply IH, first_seen_step_NoDup.
Qed.

(** With distinct group names the flattened children are the pointers held
    under each name, name after name. *)
Lemma children_by_name gs :
  NoDup (commandGroup.Name <$> gs) →
  concat (commandGroup.cmds <$> gs)
  = concat (cmds_of gs <$> (commandGroup.Name <$> gs)).
Proof.
  intros Hnd. f_equal. rewrite <- list_fmap_compose.
  apply list_fmap_ext. intros i g Hg. simpl. unfold cmds_of.
  rewrite (filter_unique_name gs g Hnd); [simpl; by rewrite app_nil_r |].
  by eapply list_elem_of_lookup_2.
Qed.

(** The nested loops of [Commands] flatten the groups. *)
Lemma Commands_loops gs acc :
  fold_left
    (fun cmds group =>
       fold_left (fun cmds cmd => cmds ++ [cmd]) (commandGroup.cmds group) cmds)
    gs acc
  = acc ++ concat (commandGroup.cmds <$> gs).
Proof.
  assert (Hin : ∀ (ps : list addr) acc,
             fold_left (fun cmds cmd => cmds ++ [cmd]) ps acc = acc ++ ps).
  { induction ps as [|q ps IH]; intros a; simpl; [by rewrite app_nil_r |].
    by rewrite IH, <- app_assoc. }
  revert acc. induction gs as [|g gs IH]; intros acc; simpl.
  - by rewrite app_nil_r.
  - by rewrite Hin, IH, <- app_assoc.
Qed.

Lemma Command_Commands_children s c n :
  commands s !! c = Some n → Command_Commands s c = Ok (Command.children n).
Proof.
  intros Hn. unfold Command_Commands. rewrite (deref_lookup _ _ _ Hn). simpl.
  by rewrite Commands_loops.
Qed.

Lemma Command_AddCommand_ok s c recv name short long group filters d :
  commands s !! c = Some recv →
  Command_AddCommand s c name short long group filters (Some d)
  = Ok (mkStore
          (<[c := Command.set_groups
                    (add_to_groups (Command.groups recv) group (length (commands s)))
                    recv]>
             (commands s ++ [attached_node name short long group filters d]))
          (arrays s),
        Some (length (commands s))).
Proof.
  intros Hrecv. unfold Command_AddCommand, add_to_groups.
  rewrite (deref_lookup _ _ _ Hrecv). simpl.
  destruct (find_group (Command.groups recv) group 0 None) as [j|]; [done |].
  replace (length (Command.groups recv))
    with (length (Command.groups recv) + 0) by lia.
  by rewrite alter_app_r.
Qed.


Lemma lookup_new_node (l : list Command.t) c v node :
  c < length l → <[c := v]> (l ++ [node]) !! length l = Some node.
Proof.
  intros Hc. rewrite list_lookup_insert_ne by lia. by apply list_lookup_middle.
Qed.



(** ** Order of the children *)

#[local] Arguments Command_AddCommand : simpl never.

Lemma AddCommands_run c calls :
  ∀ s recv, commands s !! c = Some recv →
  ∃ s' recv',
    AddCommands s c calls
    = Ok (s', Some <$> seq (length (commands s)) (length calls))
    ∧ commands s' !! c = Some recv'
    ∧ Command.groups recv'
      = fold_left add_call
          (zip (c_group <$> calls) (seq (length (commands s)) (length calls)))
          (Command.groups recv)
    ∧ (∀ p n, p ≠ c → commands s !! p = Some n → commands s' !! p = Some n)
    ∧ Forall2 (fun k p => ∃ n, commands s' !! p = Some n
                               ∧ Command.Name n = c_name k)
              calls (seq (length (commands s)) (length calls)).
Proof.
  induction calls as [|k calls IH]; intros s recv Hrecv.
  - exists s, recv. simpl. repeat split; [done.. | constructor].
  - pose proof (lookup_lt_Some _ _ _ Hrecv) as Hc. simpl.
    rewrite (Command_AddCommand_ok _ _ _ _ _ _ _ _ _ Hrecv). simpl.
    set (s1 := mkStore _ _).
    assert (Hlen : length (commands s1) = S (length (commands s))).
    { unfold s1. simpl. rewrite length_insert, length_app. simpl. lia. }
    assert (Hrecv1 : commands s1 !! c
                     = Some (Command.set_groups
                               (add_to_groups (Command.groups recv) (c_group k)
                                              (length (commands s))) recv)).
    { unfold s1. simpl. apply list_lookup_insert_eq. rewrite length_app. simpl. lia. }
    destruct (IH s1 _ Hrecv1) as (s' & recv' & -> & Hrecv' & Hgroups & Hframe & Hnames).
    rewrite Hlen in *. simpl.
    exists s', recv'. repeat split; try done.
    + intros p n Hp Hn. apply Hframe; [done |]. unfold s1. simpl.
      rewrite list_lookup_insert_ne by done.
      rewrite lookup_app_l; [done | by eapply lookup_lt_Some].
    + constructor; [| done].
      exists (attached_node (c_name k) (c_short k) (c_long k) (c_group k)
                            (c_filters k) (c_data k)).
      split; [| done]. apply Hframe; [lia |].
      unfold s1. simpl. by apply lookup_new_node.
Qed.

Lemma in_group_all (names : list string) (ptrs : list addr) g :
  length names = length ptrs → Forall (fun g' => g' = g) names →
  in_group g (zip names ptrs) = ptrs.
Proof.
  intros Hlen Hall. revert ptrs Hlen.
  induction Hall as [|g' names -> _ IH]; intros [|p ptrs] Hlen;
    simpl in *; try done.
  unfold in_group in *. simpl. destruct (decide (g = g)); [| done].
  f_equal. apply IH. lia.
Qed.

Lemma first_seen_all (names : list string) g :
  Forall (fun g' => g' = g) names → names ≠ [] → first_seen names = [g].
Proof.
  intros Hall Hne. destruct Hall as [|g' names -> Hall]; [done |].
  unfold first_seen. simpl.
  assert (Hfirst : first_seen_step [] g = [g]).
  { unfold first_seen_step. case_decide; [by apply elem_of_nil in H | done]. }
  rewrite Hfirst. clear Hfirst Hne.
  induction Hall as [|g' names -> _ IH]; simpl; [done |].
  assert (Hnext : first_seen_step [g] g = [g]).
  { unfold first_seen_step. case_decide; [done |]. exfalso. apply H. by left. }
  by rewrite Hnext.
Qed.

(** C3. After any sequence of [AddCommand] calls with a data factory on a
    parent without children, every call has returned a new pointer, and
    [Commands()] returns these pointers group after group, the groups in the
    order in which their names were first used and the pointers of a group in
    call order; each pointer refers to a node with the name of its call.  When
    all calls name the same group, [Commands()] returns the pointers in exactly
    the order of the calls. *)
Theorem Commands_in_call_order (s : Store) (c : addr) (recv : Command.t)
  (calls : list call) :
  commands s !! c = Some recv →
  Command.groups recv = [] →
  ∃ s' ptrs,
    AddCommands s c calls = Ok (s', Some <$> ptrs)
    ∧ ptrs = seq (length (commands s)) (length calls)
    ∧ Command_Commands s' c
      = Ok (concat ((fun g => in_group g (zip (c_group <$> calls) ptrs))
                    <$> first_seen (c_group <$> calls)))
    ∧ Forall2 (fun k p => ∃ n, commands s' !! p = Some n
                               ∧ Command.Name n = c_name k)
              calls ptrs
    ∧ (∀ g, Forall (fun k => c_group k = g) calls →
            Command_Commands s' c = Ok ptrs).
Proof.
  intros Hrecv Hempty.
  destruct (AddCommands_run c calls s recv Hrecv)
    as (s' & recv' & Hrun & Hrecv' & Hgroups & _ & Hnames).
  set (ptrs := seq (length (commands s)) (length calls)) in *.
  set (kps := zip (c_group <$> calls) ptrs) in *.
  assert (Hlen : length (c_group <$> calls) = length ptrs).
  { unfold ptrs. by rewrite length_fmap, length_seq. }
  rewrite Hempty in Hgroups.
  destruct (add_calls_spec kps []) as [Hn Hc]. rewrite <- Hgroups in Hn, Hc.
  assert (Hk1 : kps.*1 = c_group <$> calls).
  { unfold kps. apply fst_zip. lia. }
  assert (Hfs : commandGroup.Name <$> Command.groups recv'
                = first_seen (c_group <$> calls)).
  { rewrite Hn. unfold first_seen. simpl. f_equal. exact Hk1. }
  clear Hn. rename Hfs into Hn.
  assert (Hflat : Command_Commands s' c
                  = Ok (concat ((fun g => in_group g kps)
                                <$> first_seen (c_group <$> calls)))).
  { rewrite (Command_Commands_children _ _ _ Hrecv'). f_equal.
    unfold Command.children. rewrite children_by_name.
    - rewrite Hn. f_equal. apply list_fmap_ext. intros i g _. by rewrite Hc.
    - rewrite Hn. apply first_seen_from_NoDup, NoDup_nil_2. }
  exists s', ptrs. repeat split; try done.
  intros g Hall. rewrite Hflat. f_equal.
  assert (Hall' : Forall (fun g' => g' = g) (c_group <$> calls)).
  { by apply Forall_fmap. }
  destruct calls as [|k calls]; [done |].
  rewrite (first_seen_all _ g Hall') by done.
  change (in_group g kps ++ [] = ptrs).
  rewrite app_nil_r. by apply in_group_all.
Qed.

Lemma Commands_in_call_order_witness :
  (commands (mkStore [newCommand] []) !! 0 = Some newCommand
   ∧ Command.groups newCommand = [])
  ∧ ∃ s' ptrs,
      AddCommands (mkStore [newCommand] []) 0 three_calls = Ok (s', Some <$> ptrs)
      ∧ ptrs = [1; 2; 3]
      ∧ Command_Commands s' 0 = Ok [1; 3; 2].
Proof.
  split; [split; reflexivity |].
  destruct (Commands_in_call_order (mkStore [newCommand] []) 0 newCommand
              three_calls eq_refl eq_refl)
    as (s' & ptrs & Hrun & Hptrs & Hcmds & _).
  exists s', ptrs. split; [exact Hrun |]. split; [exact Hptrs |].
  rewrite Hcmds, Hptrs. reflexivity.
Defined.

Lemma console_ops_tree_root :
  commands (Console.store console_ops_tree)
    !! Context.cmd (Console.current console_ops_tree)
  = Some (Command.set_groups
            [commandGroup.mk "" [1]; commandGroup.mk "admin" [2]] newCommand).
Proof. reflexivity. Qed.

Lemma console_ops_tree_valid :
  Forall (valid (Console.store console_ops_tree)) [1; 2].
Proof. repeat constructor; eexists; reflexivity. Qed.

Lemma Console_FindCommand_first_match_witness :
  ∃ r, Console_FindCommand console_ops_tree "drain" = Ok r
       ∧ match r with
         | Some p => ∃ before after,
             [1; 2] = before ++ p :: after
             ∧ has_name (Console.store console_ops_tree) "drain" p = true
             ∧ Forall (fun q => has_name (Console.store console_ops_tree)
                                         "drain" q = false) before
         | None =>
             Forall (fun q => has_name (Console.store console_ops_tree)
                                       "drain" q = false) [1; 2]
         end
       ∧ ([commandGroup.mk "" [1]; commandGroup.mk "admin" [2]] = [] → r = None).
Proof.
  exact (Console_FindCommand_first_match console_ops_tree "drain" _
           console_ops_tree_root console_ops_tree_valid).
Defined.

Lemma Console_GetCommands_keeps_nil_handles_witness :
  ∃ groups,
    Console_GetCommands console_ops_tree = Ok (groups, [""; "admin"])
    ∧ default [] (groups !! "") = [None]
    ∧ default [] (groups !! "admin") = [None]
    ∧ Command_GoFlagsCommands (Console.store console_ops_tree) 0 = Ok [].
Proof.
  destruct (Console_GetCommands_keeps_nil_handles console_ops_tree _
              console_ops_tree_root console_ops_tree_valid)
    as (groups & Hrun & Hall & _ & Hgo).
  exists groups. split; [exact Hrun |].
  split; [rewrite Hall; reflexivity |].
  split; [rewrite Hall; reflexivity | exact Hgo].
Defined.

(** ** The rebuild cycle *)

(** A loop whose body keeps a precondition, relates each state to the next and
    establishes for its element a fact that later steps preserve, runs to the
    end, relates the first state to the last and leaves the fact for every
    element. *)
Lemma foldM_rel_each {S A : Type} (R : S → S → Prop) (Pre : S → Prop)
  (P : A → Prop) (Q : A → S → Prop) (body : S → A → result S)
  (xs : list A) (st : S) :
  (∀ s, Pre s → R s s) →
  (∀ s1 s2 s3, R s1 s2 → R s2 s3 → R s1 s3) →
  (∀ s s', Pre s → R s s' → Pre s') →
  (∀ x s s', Q x s → R s s' → Q x s') →
  (∀ s x, P x → Pre s → ∃ s', body s x = Ok s' ∧ R s s' ∧ Q x s') →
  Forall P xs → Pre st →
  ∃ st', foldM body xs st = Ok st' ∧ R st st' ∧ Forall (fun x => Q x st') xs.
Proof.
  intros Hrefl Htrans Hpre Hstable Hstep Hxs. revert st.
  induction Hxs as [|x xs Hx _ IH]; intros st Hst; simpl.
  - exists st. split; [done |]. split; [by apply Hrefl | constructor].
  - destruct (Hstep st x Hx Hst) as (s1 & -> & H1 & HQ). simpl.
    destruct (IH s1 (Hpre _ _ Hst H1)) as (s2 & -> & H2 & HQs).
    exists s2. split; [done |]. split; [by eapply Htrans |].
    constructor; [by eapply Hstable | done].
Qed.

Lemma foldM_rel {S A : Type} (R : S → S → Prop) (Pre : S → Prop) (P : A → Prop)
  (body : S → A → result S) (xs : list A) (st : S) :
  (∀ s, Pre s → R s s) →
  (∀ s1 s2 s3, R s1 s2 → R s2 s3 → R s1 s3) →
  (∀ s s', Pre s → R s s' → Pre s') →
  (∀ s x, P x → Pre s → ∃ s', body s x = Ok s' ∧ R s s') →
  Forall P xs → Pre st →
  ∃ st', foldM body xs st = Ok st' ∧ R st st'.
Proof.
  intros Hrefl Htrans Hpre Hstep Hxs Hst.
  destruct (foldM_rel_each R Pre P (fun _ _ => True) body xs st)
    as (st' & Hrun & HR & _); try done.
  - intros s x Hx Hs. destruct (Hstep s x Hx Hs) as (s' & ? & ?). by exists s'.
  - by exists st'.
Qed.












Lemma hidden_pass_refl c : hidden_pass c c.
Proof. repeat split; try done. exists []. by rewrite app_nil_r. Qed.

Lemma hidden_pass_trans c1 c2 c3 :
  hidden_pass c1 c2 → hidden_pass c2 c3 → hidden_pass c1 c3.
Proof.
  intros (Hs1 & Hc1 & Hf1 & Hl1 & evs1 & Hlog1 & Hev1)
         (Hs2 & Hc2 & Hf2 & Hl2 & evs2 & Hlog2 & Hev2).
  do 4 (split; [congruence |]).
  exists (evs1 ++ evs2). split.
  - by rewrite Hlog2, Hlog1, <- app_assoc.
  - by apply Forall_app.
Qed.




Lemma Forall_children_groups (P : addr → Prop) n :
  Forall P (Command.children n) →
  Forall (fun g => Forall P (commandGroup.cmds g)) (Command.groups n).
Proof.
  unfold Command.children. rewrite Forall_concat, Forall_fmap. done.
Qed.



Lemma hideCommand_ok c p :
  valid (Console.store c) p → handles_ok c →
  ∃ c', hideCommand c p = Ok c' ∧ hidden_pass c c'.
Proof.
  intros [n Hn] Hok. unfold hideCommand.
  rewrite (deref_lookup _ _ _ Hn). simpl.
  destruct (Command.cmd n) as [h|] eqn:Hh;
    [| exists c; split; [done | apply hidden_pass_refl]].
  destruct (filters_match _ _);
    [| exists c; split; [done | apply hidden_pass_refl]].
  unfold mark_hidden.
  destruct (lookup_lt_is_Some_2 _ _ (Hok _ _ _ Hn Hh)) as [o ->].
  eexists. split; [done |].
  do 3 (split; [done |]). split; [simpl; by rewrite length_insert |].
  exists [EvSetHidden h]. split; [done |]. by repeat constructor.
Qed.

Lemma hidden_pass_handles_ok c c' : handles_ok c → hidden_pass c c' → handles_ok c'.
Proof.
  intros Hok (Hs & _ & _ & Hl & _) p n h Hn Hh.
  rewrite Hs in Hn. rewrite Hl. by eapply Hok.
Qed.

(** The visibility pass returns on a well-formed console; it leaves the tree
    alone and only marks handles. *)
Lemma hideCommands_ok c root :
  commands (Console.store c) !! Context.cmd (Console.current c) = Some root →
  Forall (valid (Console.store c)) (Command.children root) →
  handles_ok c →
  ∃ c', hideCommands c = Ok c' ∧ hidden_pass c c'.
Proof.
  intros Hroot Hvalid Hok. unfold hideCommands.
  rewrite (deref_lookup _ _ _ Hroot). simpl.
  apply (foldM_rel hidden_pass
           (fun s => Console.store s = Console.store c ∧ handles_ok s)
           (fun g => Forall (valid (Console.store c)) (commandGroup.cmds g)));
    [intros; apply hidden_pass_refl | exact hidden_pass_trans | | |
     by apply Forall_children_groups | done].
  - intros s s' (Hs & Hoks) Hpass. split; [| by eapply hidden_pass_handles_ok].
    destruct Hpass as (Hs' & _). congruence.
  - intros s g Hg Hpre.
    apply (foldM_rel hidden_pass
             (fun s => Console.store s = Console.store c ∧ handles_ok s)
             (valid (Console.store c)));
      [intros; apply hidden_pass_refl | exact hidden_pass_trans | | |
       exact Hg | exact Hpre].
    + intros s1 s' (Hs & Hoks) Hpass. split; [| by eapply hidden_pass_handles_ok].
      destruct Hpass as (Hs' & _). congruence.
    + intros s1 p Hp (Hs1 & Hok1). apply hideCommand_ok; [| done].
      by rewrite Hs1.
Qed.






Lemma console_nested_tree_ok : tree_ok (commands (Console.store console_nested)).
Proof.
  intros [|[|[|p]]] n Hn; vm_compute in Hn; try discriminate;
    injection Hn as <-; unfold Command.children; simpl;
    repeat (constructor; [split; [lia | eexists; split; [reflexivity | by eexists]] |]);
    constructor.
Qed.



(** C1, at the failing input.  A root command [a], below it a subcommand [b]
    tagged [w], the filter [w] set, one rebuild: both commands have a generated
    handle, the tag of [b] is in the filter set, and the handle of [b] is not
    hidden, because [hideCommands] visits the groups of the root command only.
    When [a] carries the tag as well its handle is hidden and the handle of
    [b] still is not. *)
Theorem hideCommands_skips_subcommands :
  (∃ c a b n h o,
     rebuild_nested = Ok c
     ∧ Console_FindCommand c "a" = Ok (Some a)
     ∧ Command_FindCommand (Console.store c) a "b" = Ok (Some b)
     ∧ commands (Console.store c) !! b = Some n
     ∧ filters_match (Console.filters c)
                     (slice_elems (Console.store c) (Command.Filters n)) = true
     ∧ Command.cmd n = Some h
     ∧ handles (Console.world c) !! h = Some o
     ∧ flags.Hidden o = false)
  ∧ (∃ c0 c na nb ha hb oa ob,
       register_both_tagged = Ok c0
       ∧ bindCommands always_scans 4 c0 = Ok c
       ∧ commands (Console.store c) !! 1 = Some na
       ∧ commands (Console.store c) !! 2 = Some nb
       ∧ Command.Name na = "a" ∧ Command.Name nb = "b"
       ∧ Command.cmd na = Some ha ∧ Command.cmd nb = Some hb
       ∧ handles (Console.world c) !! ha = Some oa
       ∧ handles (Console.world c) !! hb = Some ob
       ∧ flags.Hidden oa = true
       ∧ flags.Hidden ob = false).
Proof.
  split.
  - do 6 eexists. repeat split; reflexivity.
  - do 8 eexists. repeat split; reflexivity.
Qed.

(** ** What [ShowCommands] does on a filter set without duplicates

    [HideCommands] never adds a tag twice, so the filter sets the console can
    reach have no duplicates.  On these, [ShowCommands] is a no-op for an
    absent tag and removes a present tag keeping the order of the others,
    except for the tag [""] in a position other than the last, where it
    panics. *)

Example ShowCommands_middle : ShowCommands ["a"; "b"; "c"] "b" = Ok ["a"; "c"].
Proof. reflexivity. Qed.

Example ShowCommands_last_empty : ShowCommands ["a"; ""] "" = Ok ["a"].
Proof. reflexivity. Qed.

Lemma foldM_app {S A : Type} (body : S → A → result S) xs ys st :
  foldM body (xs ++ ys) st = st' ← foldM body xs st; foldM body ys st'.
Proof.
  revert st. induction xs as [|x xs IH]; intros st; simpl; [done |].
  destruct (body st x); simpl; [apply IH | done | done].
Qed.

Lemma ShowCommands_body_other filter st i f :
  cells st !! i = Some f → f ≠ filter → ShowCommands_body filter st i = Ok st.
Proof.
  intros Hf Hne. unfold ShowCommands_body. rewrite Hf.
  by destruct (String.eqb_spec f filter).
Qed.

Lemma ShowCommands_body_match filter st i :
  cells st !! i = Some filter →
  ShowCommands_body filter st i = ShowCommands_remove st i.
Proof.
  intros Hf. unfold ShowCommands_body. by rewrite Hf, String.eqb_refl.
Qed.

Lemma ShowCommands_range_other filter idxs st :
  Forall (fun i => ∃ f, cells st !! i = Some f ∧ f ≠ filter) idxs →
  foldM (ShowCommands_body filter) idxs st = Ok st.
Proof.
  induction 1 as [|i idxs (f & Hf & Hne) _ IH]; simpl; [done |].
  rewrite (ShowCommands_body_other _ _ _ _ Hf Hne). simpl. exact IH.
Qed.

Lemma drop_last_cell {A} (x : A) l : ∃ y, drop (length l) (x :: l) = [y].
Proof.
  revert x. induction l as [|z l IH]; intros x; simpl; [by exists x | apply IH].
Qed.

Lemma ShowCommands_remove_at l1 l2 filter :
  ShowCommands_remove
    (mkShow (l1 ++ filter :: l2) (length (l1 ++ filter :: l2))) (length l1)
  = Ok (mkShow (l1 ++ l2 ++ [""]) (length l1 + length l2)).
Proof.
  unfold ShowCommands_remove. simpl.
  assert (Hn : length (l1 ++ filter :: l2) = length l1 + S (length l2))
    by (by rewrite length_app).
  rewrite Hn. rewrite decide_True by lia.
  replace (length l1 + S (length l2) - 1) with (length l1 + length l2) by lia.
  replace (length l1 + S (length l2) - (length l1 + 1)) with (length l2) by lia.
  do 2 f_equal.
  rewrite take_app_length, !drop_app_add.
  change (drop 1 (filter :: l2)) with l2.
  rewrite (take_ge l2) by done.
  destruct (drop_last_cell filter l2) as [y ->].
  rewrite insert_app_r_alt by lia.
  replace (length l1 + length l2 - length l1) with (length l2) by lia.
  rewrite insert_app_r_alt by lia.
  by replace (length l2 - length l2) with 0 by lia.
Qed.

(** Up to and including the first match: the cells before it are left alone,
    the match is removed, and the loop goes on over the remaining indices of
    the slice header it started with. *)
Lemma ShowCommands_first_match l1 l2 filter :
  filter ∉ l1 →
  foldM (ShowCommands_body filter) (seq 0 (length (l1 ++ filter :: l2)))
        (mkShow (l1 ++ filter :: l2) (length (l1 ++ filter :: l2)))
  = foldM (ShowCommands_body filter) (seq (S (length l1)) (length l2))
          (mkShow (l1 ++ l2 ++ [""]) (length l1 + length l2)).
Proof.
  intros Hl1.
  assert (Hn : length (l1 ++ filter :: l2) = length l1 + S (length l2))
    by (by rewrite length_app).
  rewrite Hn at 1. rewrite seq_app, foldM_app.
  rewrite ShowCommands_range_other.
  - simpl. rewrite ShowCommands_body_match by (by apply list_lookup_middle).
    by rewrite ShowCommands_remove_at.
  - apply Forall_seq. intros j Hj. simpl.
    destruct (lookup_lt_is_Some_2 l1 j) as [f Hf]; [lia |].
    exists f. split; [by rewrite lookup_app_l by lia |].
    intros ->. apply Hl1. by eapply list_elem_of_lookup_2.
Qed.

Lemma ShowCommands_absent fs filter :
  filter ∉ fs → ShowCommands fs filter = Ok fs.
Proof.
  intros Hnot. unfold ShowCommands. rewrite ShowCommands_range_other.
  - simpl. by rewrite take_ge.
  - apply Forall_seq. intros j Hj. simpl.
    destruct (lookup_lt_is_Some_2 fs j) as [f Hf]; [lia |].
    exists f. split; [done |].
    intros ->. apply Hnot. by eapply list_elem_of_lookup_2.
Qed.

Lemma ShowCommands_removes l1 l2 filter :
  filter ∉ l1 → filter ∉ l2 → filter ≠ "" ∨ l2 = [] →
  ShowCommands (l1 ++ filter :: l2) filter = Ok (l1 ++ l2).
Proof.
  intros Hl1 Hl2 Hcase. unfold ShowCommands.
  rewrite (ShowCommands_first_match _ _ _ Hl1).
  rewrite ShowCommands_range_other.
  - simpl. rewrite (app_assoc l1 l2). by rewrite take_app_length' by (by rewrite length_app).
  - destruct Hcase as [Hne| ->]; [| constructor].
    apply Forall_seq. intros j Hj. simpl.
    rewrite lookup_app_r by lia.
    destruct (decide (j - length l1 < length l2)) as [Hlt|Hge].
    + destruct (lookup_lt_is_Some_2 l2 (j - length l1)) as [f Hf]; [lia |].
      exists f. split; [by rewrite lookup_app_l by lia |].
      intros ->. apply Hl2. by eapply list_elem_of_lookup_2.
    + exists "". split; [| done].
      rewrite lookup_app_r by lia.
      by replace (j - length l1 - length l2) with 0 by lia.
Qed.

Lemma ShowCommands_empty_tag_not_last l1 l2 :
  "" ∉ l1 → "" ∉ l2 → l2 ≠ [] →
  ShowCommands (l1 ++ "" :: l2) "" = Panic SliceBoundsOutOfRange.
Proof.
  intros Hl1 Hl2 Hne. unfold ShowCommands.
  rewrite (ShowCommands_first_match _ _ _ Hl1).
  destruct (length l2) as [|k] eqn:Hk; [by destruct l2 |].
  rewrite seq_S, foldM_app, ShowCommands_range_other.
  - simpl. unfold ShowCommands_body. simpl.
    rewrite lookup_app_r by lia. rewrite lookup_app_r by lia.
    replace (S (length l1 + k) - length l1 - length l2) with 0 by lia. simpl.
    unfold ShowCommands_remove. simpl. by rewrite decide_False by lia.
  - apply Forall_seq. intros j Hj. simpl.
    rewrite lookup_app_r by lia.
    destruct (lookup_lt_is_Some_2 l2 (j - length l1)) as [f Hf]; [lia |].
    exists f. split; [by rewrite lookup_app_l by lia |].
    intros ->. apply Hl2. by eapply list_elem_of_lookup_2.
Qed.

(** ** What the visibility pass marks *)

Lemma foldM_groups {S : Type} (body : S → addr → result S) gs st :
  foldM (fun st g => foldM body (commandGroup.cmds g) st) gs st
  = foldM body (concat (commandGroup.cmds <$> gs)) st.
Proof.
  revert st. induction gs as [|g gs IH]; intros st; simpl; [done |].
  rewrite foldM_app. destruct (foldM body (commandGroup.cmds g) st); simpl;
    [apply IH | done | done].
Qed.

Lemma hideCommands_flat c root :
  commands (Console.store c) !! Context.cmd (Console.current c) = Some root →
  hideCommands c = foldM hideCommand (Command.children root) c.
Proof.
  intros Hroot. unfold hideCommands. rewrite (deref_lookup _ _ _ Hroot). simpl.
  apply foldM_groups.
Qed.

Lemma set_Hidden_twice o :
  flags.set_Hidden true (flags.set_Hidden true o) = flags.set_Hidden true o.
Proof. by destruct o. Qed.

Lemma hideCommand_eq s p n :
  commands (Console.store s) !! p = Some n →
  hideCommand s p
  = match Command.cmd n with
    | None => Ok s
    | Some h =>
        if filters_match (Console.filters s)
                         (slice_elems (Console.store s) (Command.Filters n))
        then mark_hidden h s
        else Ok s
    end.
Proof. intros Hn. unfold hideCommand. by rewrite (deref_lookup _ _ _ Hn). Qed.

Lemma hideCommand_marks (c0 : Console.t) ps :
  ∀ s,
    Console.store s = Console.store c0 →
    Console.filters s = Console.filters c0 →
    Forall (valid (Console.store c0)) ps →
    handles_ok s →
    ∃ s',
      foldM hideCommand ps s = Ok s'
      ∧ Console.store s' = Console.store c0
      ∧ ∀ h o, handles (Console.world s) !! h = Some o →
               handles (Console.world s') !! h
               = Some (if existsb (marks c0 h) ps
                       then flags.set_Hidden true o else o).
Proof.
  induction ps as [|p ps IH]; intros s Hs Hf Hvalid Hok.
  - exists s. by repeat split.
  - apply Forall_cons in Hvalid as [[n Hn] Hvalid].
    cbn [foldM existsb].
    rewrite (hideCommand_eq s p n) by (by rewrite Hs).
    rewrite Hs, Hf. unfold marks at 1. rewrite Hn.
    destruct (Command.cmd n) as [h0|] eqn:Hh0; simpl.
    + destruct (filters_match _ _) eqn:Hmatch.
      * unfold mark_hidden.
        assert (Hlive : h0 < length (handles (Console.world s))).
        { eapply Hok; [| exact Hh0]. by rewrite Hs. }
        destruct (lookup_lt_is_Some_2 _ _ Hlive) as [o0 Ho0]. rewrite Ho0. simpl.
        edestruct IH as (s' & -> & Hs' & Hmarks); [| | exact Hvalid | |].
        { simpl. exact Hs. }
        { simpl. exact Hf. }
        { intros p' n' h' Hn' Hh'. simpl. rewrite length_insert.
          eapply Hok; [exact Hn' | exact Hh']. }
        exists s'. split; [done |]. split; [done |].
        intros h o Ho. simpl in Hmarks.
        destruct (decide (h0 = h)) as [->|Hne].
        -- rewrite (Hmarks h (flags.set_Hidden true o0)).
           ++ rewrite bool_decide_true by done. simpl.
              assert (o0 = o) as -> by congruence.
              rewrite set_Hidden_twice. by destruct (existsb _ _).
           ++ by apply list_lookup_insert_eq.
        -- rewrite (Hmarks h o) by (by rewrite list_lookup_insert_ne).
           rewrite bool_decide_false by congruence. done.
      * destruct (IH s Hs Hf Hvalid Hok) as (s' & Hrun & Hs' & Hmarks).
        exists s'. split; [exact Hrun |]. split; [done |].
        intros h o Ho. rewrite (Hmarks h o Ho). by rewrite andb_false_r.
    + destruct (IH s Hs Hf Hvalid Hok) as (s' & Hrun & Hs' & Hmarks).
      exists s'. split; [exact Hrun |]. split; [done |].
      intros h o Ho. by rewrite (Hmarks h o Ho).
Qed.

(** After the visibility pass, a handle is marked exactly when a root-level
    command holds it and carries a tag of the filter set; its other fields and
    the tree are as before. *)
Lemma hideCommands_root_level c root :
  commands (Console.store c) !! Context.cmd (Console.current c) = Some root →
  Forall (valid (Console.store c)) (Command.children root) →
  handles_ok c →
  ∃ c',
    hideCommands c = Ok c'
    ∧ Console.store c' = Console.store c
    ∧ ∀ h o, handles (Console.world c) !! h = Some o →
             handles (Console.world c') !! h
             = Some (if existsb (marks c h) (Command.children root)
                     then flags.set_Hidden true o else o).
Proof.
  intros Hroot Hvalid Hok. rewrite (hideCommands_flat _ _ Hroot).
  by apply hideCommand_marks.
Qed.

(** ** Well-formedness is what the API builds *)

Lemma add_to_groups_children gs group p q :
  q ∈ concat (commandGroup.cmds <$> add_to_groups gs group p) →
  q = p ∨ q ∈ concat (commandGroup.cmds <$> gs).
Proof.
  unfold add_to_groups.
  pose proof (find_group_last gs group) as H.
  destruct (find_group gs group 0 None) as [j|].
  - destruct H as (l1 & g & l2 & -> & <- & _ & _).
    rewrite alter_middle, !fmap_app, !concat_app, !fmap_cons. simpl.
    rewrite !elem_of_app, list_elem_of_singleton. tauto.
  - rewrite fmap_app, concat_app. simpl.
    rewrite !elem_of_app, list_elem_of_singleton.
    tauto.
Qed.

Lemma console0_tree_ok : tree_ok (commands (Console.store console0)).
Proof.
  intros [|p] n Hn; simpl in Hn; [| done]. injection Hn as <-. constructor.
Qed.

Lemma console0_handles_ok : handles_ok console0.
Proof.
  intros [|p] n h Hn Hh; simpl in Hn; [| done]. by injection Hn as <-.
Qed.

Lemma AddCommand_tree_ok s c recv name short long group filters d s' r :
  tree_ok (commands s) →
  commands s !! c = Some recv →
  Command_AddCommand s c name short long group filters (Some d) = Ok (s', r) →
  tree_ok (commands s').
Proof.
  intros Hok Hrecv Hadd.
  rewrite (Command_AddCommand_ok _ _ _ _ _ _ _ _ _ Hrecv) in Hadd.
  injection Hadd as <- <-. simpl.
  pose proof (lookup_lt_Some _ _ _ Hrecv) as Hc.
  set (new := length (commands s)) in *.
  set (node := attached_node name short long group filters d).
  set (recv' := Command.set_groups _ recv).
  assert (Hold : ∀ q m, commands s !! q = Some m →
                        is_Some (Command.generator m) →
                        ∃ m', <[c := recv']> (commands s ++ [node]) !! q = Some m'
                              ∧ is_Some (Command.generator m')).
  { intros q m Hm Hg. destruct (decide (c = q)) as [<-|Hne].
    - exists recv'. split.
      + apply list_lookup_insert_eq. rewrite length_app. simpl. lia.
      + assert (m = recv) as -> by congruence. by destruct recv.
    - exists m. split; [| done]. rewrite list_lookup_insert_ne by done.
      rewrite lookup_app_l; [done | by eapply lookup_lt_Some]. }
  intros p n Hn. apply Forall_forall. intros q Hq.
  destruct (decide (c = p)) as [<-|Hne].
  - rewrite list_lookup_insert_eq in Hn by (rewrite length_app; simpl; lia).
    injection Hn as <-. unfold Command.children in Hq. simpl in Hq.
    apply add_to_groups_children in Hq as [->|Hq].
    + split; [done |]. exists node. split; [by apply lookup_new_node | by eexists].
    + pose proof (Hok _ _ Hrecv) as Hch. rewrite Forall_forall in Hch.
      destruct (Hch q Hq) as (Hlt & m & Hm & Hg). split; [done |]. by eapply Hold.
  - rewrite list_lookup_insert_ne in Hn by done.
    apply lookup_app_Some in Hn as [Hn|[Hge Hn]].
    + pose proof (Hok _ _ Hn) as Hch. rewrite Forall_forall in Hch.
      destruct (Hch q Hq) as (Hlt & m & Hm & Hg). split; [done |]. by eapply Hold.
    + apply list_lookup_singleton_Some in Hn as [_ <-]. by apply elem_of_nil in Hq.
Qed.

Lemma AddCommand_handles_ok c name short long group filters data c' r :
  handles_ok c →
  Console_AddCommand c name short long group filters data = Ok (c', r) →
  handles_ok c'.
Proof.
  intros Hok Hadd. unfold Console_AddCommand in Hadd.
  destruct data as [d|]; [| by injection Hadd as <- <-].
  destruct (commands (Console.store c) !! Context.cmd (Console.current c))
    as [recv|] eqn:Hrecv.
  - rewrite (Command_AddCommand_ok _ _ _ _ _ _ _ _ _ Hrecv) in Hadd.
    simpl in Hadd. injection Hadd as <- <-.
    pose proof (lookup_lt_Some _ _ _ Hrecv) as Hc.
    intros p n h Hn Hh. simpl in Hn. simpl.
    destruct (decide (Context.cmd (Console.current c) = p)) as [<-|Hne].
    + rewrite list_lookup_insert_eq in Hn by (rewrite length_app; simpl; lia).
      injection Hn as <-. simpl in Hh. by eapply Hok.
    + rewrite list_lookup_insert_ne in Hn by done.
      apply lookup_app_Some in Hn as [Hn|[Hge Hn]]; [by eapply Hok |].
      apply list_lookup_singleton_Some in Hn as [_ <-]. done.
  - unfold Command_AddCommand, deref in Hadd. by rewrite Hrecv in Hadd.
Qed.

(** ** Where loading a configuration does return *)

Lemma LoadConfig_nil BOLD FOREWHITE loadFromConfig c :
  LoadConfig BOLD FOREWHITE loadFromConfig c None = Ok c.
Proof. reflexivity. Qed.

(** With an entry for the current context in the map of prompts, and a
    [loadFromConfig] that returns, the shell fields are taken from the entry
    and the input mode from the configuration. *)
Lemma LoadConfig_with_entry BOLD FOREWHITE loadFromConfig c conf prompts e p :
  Config.Prompts conf = Some prompts →
  prompts !! Context.Name (Console.current c) = Some e →
  loadFromConfig (Context.Prompt (Console.current c)) (Some e) = Ok p →
  ∃ c',
    LoadConfig BOLD FOREWHITE loadFromConfig c (Some conf) = Ok c'
    ∧ Context.Prompt (Console.current c') = p
    ∧ Shell.MultilinePrompt (Console.shell c') = PromptConfig.MultilinePrompt e
    ∧ Shell.Multiline (Console.shell c') = PromptConfig.Multiline e
    ∧ Console.PreOutputNewline c' = PromptConfig.Newline e
    ∧ Shell.InputMode (Console.shell c')
      = (if String.eqb (Config.InputMode conf) InputEmacs
         then readline_Emacs else readline_Vim).
Proof.
  intros Hprompts He Hload. unfold LoadConfig. rewrite Hprompts.
  assert (Hentry : ∀ conf', Config.Prompts conf' = Some prompts →
                            prompt_entry conf' (Context.Name (Console.current c))
                            = Some e).
  { intros conf' H. unfold prompt_entry. by rewrite H. }
  destruct (Config.Highlighting conf); unfold reloadConfig; simpl;
    rewrite !Hentry by (by destruct conf); rewrite Hload; simpl;
    eexists; (split; [done |]); by repeat split.
Qed.

(** * Further properties of the code *)

(** ** The filter set: removal, round trip, distinctness *)

Lemma not_in_witness_ab : "b" ∉ ["a"].
Proof.
  intros H. apply elem_of_cons in H as [H|H]; [discriminate |].
  by apply elem_of_nil in H.
Qed.

Lemma NoDup_split_at (fs : list string) tag :
  NoDup fs → tag ∈ fs →
  ∃ l1 l2, fs = l1 ++ tag :: l2 ∧ (tag ∉ l1) ∧ (tag ∉ l2).
Proof.
  intros Hnd Hin. destruct (list_elem_of_split _ _ Hin) as (l1 & l2 & ->).
  exists l1, l2. apply NoDup_app in Hnd as (_ & Hdisj & Hnd2).
  apply NoDup_cons in Hnd2 as [Hn2 _]. split; [done |]. split; [| done].
  intros H1. apply (Hdisj tag H1). by left.
Qed.

Lemma filter_all {A} (P : A → Prop) `{∀ x, Decision (P x)} (l : list A) :
  Forall P l → filter P l = l.
Proof.
  induction 1 as [|x l Hx _ IH]; [done |]. by rewrite filter_cons_True, IH.
Qed.

Lemma filter_ne_split (l1 l2 : list string) tag :
  tag ∉ l1 → tag ∉ l2 → filter (fun f => f ≠ tag) (l1 ++ tag :: l2) = l1 ++ l2.
Proof.
  intros H1 H2. rewrite filter_app, filter_cons_False by (intros H; by apply H).
  rewrite !filter_all; [done | |]; apply Forall_forall; by intros f Hf ->.
Qed.

Lemma last_middle (l1 l2 : list string) tag :
  tag ∉ l2 → last (l1 ++ tag :: l2) = Some tag → l2 = [].
Proof.
  intros Hnot Hlast. destruct l2 as [|y l2 _] using rev_ind; [done |].
  exfalso. change (l1 ++ tag :: l2 ++ [y]) with (l1 ++ (tag :: l2) ++ [y]) in Hlast.
  rewrite app_assoc, last_snoc in Hlast.
  injection Hlast as ->. apply Hnot, elem_of_app. right. by left.
Qed.

Lemma Console_ShowCommands_absent_list c tag :
  tag ∉ Console.filters c → Console_ShowCommands c tag = Ok c.
Proof.
  intros Hnot. unfold Console_ShowCommands.
  rewrite (ShowCommands_absent _ _ Hnot). simpl. by rewrite set_filters_same.
Qed.

(** X1. [ShowCommands] with a tag that is not in the filter set returns and
    leaves the console exactly as it was, whatever the filter set holds. *)
Theorem Console_ShowCommands_absent (c : Console.t) (tag : string) :
  tag ∉ Console.filters c → Console_ShowCommands c tag = Ok c.
Proof.
  intros Hnot. unfold Console_ShowCommands.
  assert (Hrange : foldM (ShowCommands_body tag)
                         (seq 0 (length (Console.filters c)))
                         (mkShow (Console.filters c) (length (Console.filters c)))
                   = Ok (mkShow (Console.filters c) (length (Console.filters c)))).
  { apply ShowCommands_range_other, Forall_seq. intros j Hj. simpl.
    destruct (lookup_lt_is_Some_2 (Console.filters c) j) as [f Hf]; [lia |].
    exists f. split; [done |].
    intros ->. apply Hnot. by eapply list_elem_of_lookup_2. }
  unfold ShowCommands. rewrite Hrange. simpl.
  rewrite take_ge by done. apply f_equal, set_filters_same.
Qed.

Lemma Console_ShowCommands_absent_witness :
  ("b" ∉ Console.filters (Console_HideCommands console0 "a"))
  ∧ Console_ShowCommands (Console_HideCommands console0 "a") "b"
    = Ok (Console_HideCommands console0 "a").
Proof.
  split; [exact not_in_witness_ab |].
  exact (Console_ShowCommands_absent (Console_HideCommands console0 "a") "b"
           not_in_witness_ab).
Defined.

(** X2. On a filter set without duplicates, [ShowCommands] with a tag that is
    present, and that is not [""] or stands last, returns the filter set
    without the tag, the other tags in the order they had. *)
Theorem Console_ShowCommands_removes (c : Console.t) (tag : string) :
  NoDup (Console.filters c) →
  tag ∈ Console.filters c →
  tag ≠ "" ∨ last (Console.filters c) = Some tag →
  Console_ShowCommands c tag
  = Ok (Console.set_filters (filter (fun f => f ≠ tag) (Console.filters c)) c).
Proof.
  intros Hnd Hin Hcase.
  destruct (NoDup_split_at _ _ Hnd Hin) as (l1 & l2 & Hfs & H1 & H2).
  unfold Console_ShowCommands. rewrite Hfs in *.
  rewrite (ShowCommands_removes l1 l2 tag H1 H2).
  - simpl. by rewrite filter_ne_split.
  - destruct Hcase as [Hne|Hlast]; [by left | right]. by eapply last_middle.
Qed.

Lemma Console_ShowCommands_removes_witness :
  (NoDup ["a"; "b"; "c"] ∧ "b" ∈ ["a"; "b"; "c"]
   ∧ ("b" ≠ "" ∨ last ["a"; "b"; "c"] = Some "b"))
  ∧ Console_ShowCommands (Console.set_filters ["a"; "b"; "c"] console0) "b"
    = Ok (Console.set_filters ["a"; "c"] console0).
Proof.
  assert (Hnd : NoDup ["a"; "b"; "c"]).
  { repeat (apply NoDup_cons; split;
            [intros H; repeat (apply elem_of_cons in H as [H|H]; [discriminate |]);
             by apply elem_of_nil in H |]).
    apply NoDup_nil_2. }
  assert (Hin : "b" ∈ ["a"; "b"; "c"]) by (right; left).
  assert (Hne : "b" ≠ "" ∨ last ["a"; "b"; "c"] = Some "b") by (left; discriminate).
  split; [by repeat split |].
  exact (Console_ShowCommands_removes
           (Console.set_filters ["a"; "b"; "c"] console0) "b" Hnd Hin Hne).
Defined.

(** X3. When the tag [""] is in the filter set once and another tag comes after
    it, [ShowCommands("")] panics with a slice bound out of range: after the
    removal the loop meets the cell it has just erased. *)
Theorem Console_ShowCommands_empty_tag_panics (c : Console.t) (l1 l2 : list string) :
  Console.filters c = l1 ++ "" :: l2 →
  "" ∉ l1 → "" ∉ l2 → l2 ≠ [] →
  Console_ShowCommands c "" = Panic SliceBoundsOutOfRange.
Proof.
  intros Hfs H1 H2 Hne. unfold Console_ShowCommands.
  by rewrite Hfs, (ShowCommands_empty_tag_not_last l1 l2 H1 H2 Hne).
Qed.

Lemma Console_ShowCommands_empty_tag_panics_witness :
  (Console.filters (Console.set_filters ["x"; ""; "y"] console0)
   = ["x"] ++ "" :: ["y"]
   ∧ ("" ∉ ["x"]) ∧ ("" ∉ ["y"]) ∧ ["y"] ≠ [])
  ∧ Console_ShowCommands (Console.set_filters ["x"; ""; "y"] console0) ""
    = Panic SliceBoundsOutOfRange.
Proof.
  assert (Hx : "" ∉ ["x"]).
  { intros H. apply elem_of_cons in H as [H|H]; [discriminate |].
    by apply elem_of_nil in H. }
  assert (Hy : "" ∉ ["y"]).
  { intros H. apply elem_of_cons in H as [H|H]; [discriminate |].
    by apply elem_of_nil in H. }
  assert (Hne : ["y"] ≠ []) by discriminate.
  split; [by repeat split |].
  exact (Console_ShowCommands_empty_tag_panics
           (Console.set_filters ["x"; ""; "y"] console0) ["x"] ["y"]
           eq_refl Hx Hy Hne).
Defined.

(** X4. Hiding a tag that is not in the filter set and showing it again gives
    back the console as it was: the tag was appended last, so its removal
    returns for every tag, [""] included. *)
Theorem HideCommands_then_ShowCommands (c : Console.t) (tag : string) :
  tag ∉ Console.filters c →
  Console_ShowCommands (Console_HideCommands c tag) tag = Ok c.
Proof.
  intros Hnot. unfold Console_ShowCommands, Console_HideCommands.
  destruct c as [s w cur fs po conf sh nl]. simpl in *.
  rewrite HideCommands_spec, decide_False by done.
  rewrite (ShowCommands_removes fs [] tag Hnot);
    [| apply not_elem_of_nil | by right].
  simpl. unfold Console.set_filters. simpl. by rewrite app_nil_r.
Qed.

Lemma HideCommands_then_ShowCommands_witness :
  ("" ∉ Console.filters (Console.set_filters ["a"; "b"] console0))
  ∧ Console_ShowCommands
      (Console_HideCommands (Console.set_filters ["a"; "b"] console0) "") ""
    = Ok (Console.set_filters ["a"; "b"] console0).
Proof.
  assert (Hnot : "" ∉ Console.filters (Console.set_filters ["a"; "b"] console0)).
  { simpl. intros H.
    repeat (apply elem_of_cons in H as [H|H]; [discriminate |]).
    by apply elem_of_nil in H. }
  split; [exact Hnot |].
  exact (HideCommands_then_ShowCommands
           (Console.set_filters ["a"; "b"] console0) "" Hnot).
Defined.

(** X5. A filter set without duplicates stays without duplicates: after
    [HideCommands], and after every [ShowCommands] that returns; and whenever
    [ShowCommands] returns, the filter set holds exactly the tags it held
    other than the one removed. *)
Theorem filters_stay_distinct (c : Console.t) (tag : string) :
  NoDup (Console.filters c) →
  NoDup (Console.filters (Console_HideCommands c tag))
  ∧ ∀ c', Console_ShowCommands c tag = Ok c' →
          NoDup (Console.filters c')
          ∧ ∀ f, f ∈ Console.filters c' ↔ f ∈ Console.filters c ∧ f ≠ tag.
Proof.
  intros Hnd. split.
  - unfold Console_HideCommands. simpl. rewrite HideCommands_spec.
    case_decide; [done |]. apply NoDup_app. repeat split; [done | | ].
    + intros f Hf ->%list_elem_of_singleton. done.
    + apply NoDup_singleton.
  - intros c' Hshow. destruct (decide (tag ∈ Console.filters c)) as [Hin|Hnot].
    + destruct (NoDup_split_at _ _ Hnd Hin) as (l1 & l2 & Hfs & H1 & H2).
      destruct (decide (tag ≠ "" ∨ l2 = [])) as [Hcase|Hcase].
      * unfold Console_ShowCommands in Hshow. rewrite Hfs in Hshow.
        rewrite (ShowCommands_removes l1 l2 tag H1 H2 Hcase) in Hshow.
        simpl in Hshow. injection Hshow as <-. simpl.
        rewrite Hfs in Hnd. split.
        -- apply NoDup_app in Hnd as (Hnd1 & Hdisj & Hnd2).
           apply NoDup_cons in Hnd2 as [_ Hnd2].
           apply NoDup_app. repeat split; [done | | done].
           intros f Hf1 Hf2. apply (Hdisj f Hf1). by right.
        -- intros f. rewrite Hfs, !elem_of_app, elem_of_cons. split.
           ++ intros [Hf|Hf]; (split; [tauto | by intros ->]).
           ++ intros [[Hf|[Hf|Hf]] Hne]; tauto.
      * exfalso. assert (tag = "" ∧ l2 ≠ []) as [-> Hl2].
        { destruct (decide (tag = "")); destruct (decide (l2 = [])); tauto. }
        unfold Console_ShowCommands in Hshow. rewrite Hfs in Hshow.
        by rewrite (ShowCommands_empty_tag_not_last l1 l2 H1 H2 Hl2) in Hshow.
    + rewrite (Console_ShowCommands_absent_list c tag Hnot) in Hshow.
      injection Hshow as <-. split; [done |].
      intros f. split; [| tauto]. intros Hf. split; [done | by intros ->].
Qed.

Lemma filters_stay_distinct_witness :
  NoDup (Console.filters (Console.set_filters ["a"; "b"] console0))
  ∧ NoDup (Console.filters
             (Console_HideCommands (Console.set_filters ["a"; "b"] console0) "b"))
  ∧ ∀ c', Console_ShowCommands (Console.set_filters ["a"; "b"] console0) "b"
          = Ok c' →
          NoDup (Console.filters c')
          ∧ ∀ f, f ∈ Console.filters c' ↔ f ∈ ["a"; "b"] ∧ f ≠ "b".
Proof.
  assert (Hnd : NoDup (Console.filters (Console.set_filters ["a"; "b"] console0))).
  { simpl. apply NoDup_cons. split; [| apply NoDup_singleton].
    intros H. apply elem_of_cons in H as [H|H]; [discriminate |].
    by apply elem_of_nil in H. }
  split; [exact Hnd |].
  exact (filters_stay_distinct (Console.set_filters ["a"; "b"] console0) "b" Hnd).
Defined.

(** ** [AddCommand]: what it changes and what it leaves alone *)

Lemma add_to_groups_inserts gs group p :
  ∃ before after,
    concat (commandGroup.cmds <$> gs) = before ++ after
    ∧ concat (commandGroup.cmds <$> add_to_groups gs group p)
      = before ++ p :: after.
Proof.
  unfold add_to_groups.
  pose proof (find_group_last gs group) as H.
  destruct (find_group gs group 0 None) as [j|].
  - destruct H as (l1 & g & l2 & -> & <- & _ & _).
    exists (concat (commandGroup.cmds <$> l1) ++ commandGroup.cmds g),
           (concat (commandGroup.cmds <$> l2)).
    rewrite alter_middle, !fmap_app, !concat_app, !fmap_cons. simpl.
    by rewrite <- !app_assoc.
  - exists (concat (commandGroup.cmds <$> gs)), [].
    rewrite fmap_app, concat_app. simpl. by rewrite !app_nil_r.
Qed.

Lemma set_groups_back gs recv :
  Command.set_groups (Command.groups recv) (Command.set_groups gs recv) = recv.
Proof. by destruct recv. Qed.

(** X6. A successful [AddCommand] allocates exactly one node, at an address
    that was free, and returns it.  Every node other than the receiver is as
    before, the receiver differs in its groups only, no backing array is
    touched, and the children of the receiver are the children it had, in the
    order they had, with the new pointer inserted at one place. *)
Theorem AddCommand_inserts_one (s : Store) (c : addr) (recv : Command.t)
  (name short long group : string) (filters : option slice) (d : DataFactory) :
  commands s !! c = Some recv →
  ∃ s' recv' before after,
    Command_AddCommand s c name short long group filters (Some d)
    = Ok (s', Some (length (commands s)))
    ∧ commands s !! length (commands s) = None
    ∧ length (commands s') = S (length (commands s))
    ∧ (∀ p, p ≠ c → p ≠ length (commands s) →
            commands s' !! p = commands s !! p)
    ∧ commands s' !! c = Some recv'
    ∧ Command.set_groups (Command.groups recv) recv' = recv
    ∧ arrays s' = arrays s
    ∧ Command_Commands s c = Ok (before ++ after)
    ∧ Command_Commands s' c = Ok (before ++ length (commands s) :: after).
Proof.
  intros Hrecv. pose proof (lookup_lt_Some _ _ _ Hrecv) as Hc.
  destruct (add_to_groups_inserts (Command.groups recv) group
              (length (commands s))) as (before & after & Hold & Hnew).
  eexists _, _, before, after.
  split; [by apply Command_AddCommand_ok |]. simpl.
  split; [by apply lookup_ge_None_2 |].
  split; [rewrite length_insert, length_app; simpl; lia |].
  split.
  { intros p Hpc Hpn. rewrite list_lookup_insert_ne by done.
    destruct (decide (p < length (commands s))) as [Hlt|Hge].
    - by rewrite lookup_app_l.
    - rewrite !lookup_ge_None_2; [done | lia |]. rewrite length_app. simpl. lia. }
  split; [apply list_lookup_insert_eq; rewrite length_app; simpl; lia |].
  split; [apply set_groups_back |].
  split; [done |].
  split.
  - rewrite (Command_Commands_children _ _ _ Hrecv). by rewrite <- Hold.
  - rewrite (Command_Commands_children _ c
               (Command.set_groups
                  (add_to_groups (Command.groups recv) group (length (commands s)))
                  recv)).
    + unfold Command.children. simpl. by rewrite Hnew.
    + simpl. apply list_lookup_insert_eq. rewrite length_app. simpl. lia.
Qed.

Lemma AddCommand_inserts_one_witness :
  commands (Console.store console_ops_tree) !! 0
  = Some (Command.set_groups
            [commandGroup.mk "" [1]; commandGroup.mk "admin" [2]] newCommand)
  ∧ ∃ s' recv' before after,
      Command_AddCommand (Console.store console_ops_tree) 0 "top" "" "" "" None
                         (Some (fun _ => 3))
      = Ok (s', Some 3)
      ∧ commands (Console.store console_ops_tree) !! 3 = None
      ∧ length (commands s') = 4
      ∧ (∀ p, p ≠ 0 → p ≠ 3 →
              commands s' !! p = commands (Console.store console_ops_tree) !! p)
      ∧ commands s' !! 0 = Some recv'
      ∧ Command.set_groups
          [commandGroup.mk "" [1]; commandGroup.mk "admin" [2]] recv'
        = Command.set_groups
            [commandGroup.mk "" [1]; commandGroup.mk "admin" [2]] newCommand
      ∧ arrays s' = arrays (Console.store console_ops_tree)
      ∧ Command_Commands (Console.store console_ops_tree) 0 = Ok (before ++ after)
      ∧ Command_Commands s' 0 = Ok (before ++ 3 :: after).
Proof.
  split; [reflexivity |].
  exact (AddCommand_inserts_one (Console.store console_ops_tree) 0 _
           "top" "" "" "" None (fun _ => 3) console_ops_tree_root).
Defined.

(** X7. [AddCommand] looks the group up or creates it: when the receiver has a
    group of that name no group is added, otherwise one group of that name is
    added last; the names of the other groups and their order are as before,
    distinct group names stay distinct, and the new pointer is held last under
    the name of the call while every other name holds what it held. *)
Theorem AddCommand_group_lookup_or_create (s : Store) (c : addr)
  (recv : Command.t) (name short long group : string) (filters : option slice)
  (d : DataFactory) :
  commands s !! c = Some recv →
  ∃ s' groups',
    Command_AddCommand s c name short long group filters (Some d)
    = Ok (s', Some (length (commands s)))
    ∧ Command_CommandGroups s' c = Ok groups'
    ∧ commandGroup.Name <$> groups'
      = (if decide (group ∈ commandGroup.Name <$> Command.groups recv)
         then commandGroup.Name <$> Command.groups recv
         else (commandGroup.Name <$> Command.groups recv) ++ [group])
    ∧ (NoDup (commandGroup.Name <$> Command.groups recv) →
       NoDup (commandGroup.Name <$> groups'))
    ∧ ∀ other, cmds_of groups' other
               = cmds_of (Command.groups recv) other
                 ++ (if decide (group = other) then [length (commands s)] else []).
Proof.
  intros Hrecv. pose proof (lookup_lt_Some _ _ _ Hrecv) as Hc.
  eexists _, _. split; [by apply Command_AddCommand_ok |].
  split.
  { unfold Command_CommandGroups, deref. simpl.
    rewrite list_lookup_insert_eq by (rewrite length_app; simpl; lia). done. }
  simpl. split; [apply add_to_groups_names |].
  split.
  - intros Hnd. rewrite add_to_groups_names. by apply first_seen_step_NoDup.
  - intros other. apply add_to_groups_cmds.
Qed.

Lemma AddCommand_group_lookup_or_create_witness :
  commands (Console.store console_ops_tree) !! 0
  = Some (Command.set_groups
            [commandGroup.mk "" [1]; commandGroup.mk "admin" [2]] newCommand)
  ∧ ∃ s' groups',
      Command_AddCommand (Console.store console_ops_tree) 0 "kill" "" "" "admin"
                         None (Some (fun _ => 3))
      = Ok (s', Some 3)
      ∧ Command_CommandGroups s' 0 = Ok groups'
      ∧ commandGroup.Name <$> groups' = [""; "admin"]
      ∧ cmds_of groups' "admin" = [2; 3]
      ∧ cmds_of groups' "" = [1].
Proof.
  split; [reflexivity |].
  destruct (AddCommand_group_lookup_or_create (Console.store console_ops_tree) 0 _
              "kill" "" "" "admin" None (fun _ => 3) console_ops_tree_root)
    as (s' & groups' & Hrun & Hgroups & Hnames & _ & Hcmds).
  exists s', groups'. split; [exact Hrun |]. split; [exact Hgroups |].
  split; [exact Hnames |]. split; [exact (Hcmds "admin") | exact (Hcmds "")].
Defined.

Lemma has_name_after_add s c recv gs node name q :
  commands s !! c = Some recv →
  q < length (commands s) →
  has_name (mkStore (<[c := Command.set_groups gs recv]> (commands s ++ [node]))
                    (arrays s)) name q
  = has_name s name q.
Proof.
  intros Hrecv Hq. unfold has_name. simpl.
  destruct (decide (c = q)) as [<-|Hne].
  - rewrite list_lookup_insert_eq
      by (rewrite length_app; simpl; pose proof (lookup_lt_Some _ _ _ Hrecv); lia).
    rewrite Hrecv. by destruct recv.
  - rewrite list_lookup_insert_ne by done. by rewrite lookup_app_l.
Qed.

Lemma valid_after_add s c recv gs node (q : addr) :
  commands s !! c = Some recv →
  (q ≤ length (commands s))%nat →
  valid (mkStore (<[c := Command.set_groups gs recv]> (commands s ++ [node]))
                 (arrays s)) q.
Proof.
  intros Hrecv Hq. unfold valid. simpl. apply lookup_lt_is_Some_2.
  rewrite length_insert, length_app. simpl. lia.
Qed.

Lemma find_ext_in {A} (f g : A → bool) l :
  Forall (fun x => f x = g x) l → find f l = find g l.
Proof.
  induction 1 as [|x l Hx _ IH]; simpl; [done |]. by rewrite Hx, IH.
Qed.

(** X8. After a successful [AddCommand] under a name that none of the children
    of the receiver carries, [FindCommand] with that name returns the new
    node; and [FindCommand] with any other name returns what it returned
    before the call. *)
Theorem AddCommand_then_FindCommand (s : Store) (c : addr) (recv : Command.t)
  (name short long group : string) (filters : option slice) (d : DataFactory) :
  commands s !! c = Some recv →
  Forall (valid s) (Command.children recv) →
  Forall (fun q => has_name s name q = false) (Command.children recv) →
  ∃ s',
    Command_AddCommand s c name short long group filters (Some d)
    = Ok (s', Some (length (commands s)))
    ∧ Command_FindCommand s' c name = Ok (Some (length (commands s)))
    ∧ ∀ other, other ≠ name →
               Command_FindCommand s' c other = Command_FindCommand s c other.
Proof.
  intros Hrecv Hvalid Hnone.
  pose proof (lookup_lt_Some _ _ _ Hrecv) as Hc.
  destruct (add_to_groups_inserts (Command.groups recv) group
              (length (commands s))) as (before & after & Hold & Hnew).
  set (gs := add_to_groups (Command.groups recv) group (length (commands s))) in *.
  set (node := attached_node name short long group filters d).
  set (s' := mkStore (<[c := Command.set_groups gs recv]> (commands s ++ [node]))
                     (arrays s)).
  assert (Hrecv' : commands s' !! c = Some (Command.set_groups gs recv)).
  { simpl. apply list_lookup_insert_eq. rewrite length_app. simpl. lia. }
  assert (Hlt : Forall (fun q => q < length (commands s)) (Command.children recv)).
  { eapply Forall_impl; [exact Hvalid |]. intros q Hq.
    by apply lookup_lt_is_Some_1. }
  unfold Command.children in Hvalid, Hnone, Hlt. rewrite Hold in *.
  apply Forall_app in Hlt as [Hlt1 Hlt2].
  apply Forall_app in Hnone as [Hnone1 Hnone2].
  assert (Hvalid' : Forall (valid s') (concat (commandGroup.cmds <$> gs))).
  { rewrite Hnew. apply Forall_app. split; [| constructor].
    - eapply Forall_impl; [exact Hlt1 |]. intros q Hq. simpl in Hq.
      apply (valid_after_add s c recv gs node q Hrecv). lia.
    - by apply (valid_after_add s c recv gs node _ Hrecv).
    - eapply Forall_impl; [exact Hlt2 |]. intros q Hq. simpl in Hq.
      apply (valid_after_add s c recv gs node q Hrecv). lia. }
  assert (Hnode : ∀ n, has_name s' n (length (commands s)) = String.eqb name n).
  { intros n. unfold has_name. simpl.
    by rewrite (lookup_new_node _ _ _ node Hc). }
  assert (Hfind' : ∀ n, Command_FindCommand s' c n
                        = Ok (find (has_name s' n)
                                   (before ++ length (commands s) :: after))).
  { intros n. unfold Command_FindCommand.
    rewrite (deref_lookup _ _ _ Hrecv'). simpl.
    rewrite find_in_groups_spec by exact Hvalid'. by rewrite Hnew. }
  assert (Hsame : ∀ n l, Forall (fun q => q < length (commands s)) l →
                         find (has_name s' n) l = find (has_name s n) l).
  { intros n l Hl. apply find_ext_in. eapply Forall_impl; [exact Hl |].
    intros q Hq. by apply has_name_after_add. }
  exists s'. split; [by apply Command_AddCommand_ok |]. split.
  - rewrite Hfind', find_app_first, (Hsame _ _ Hlt1).
    assert (Hb : find (has_name s name) before = None).
    { clear -Hnone1. induction Hnone1 as [|q l Hq _ IH]; simpl; [done |].
      by rewrite Hq. }
    rewrite Hb. simpl. by rewrite Hnode, String.eqb_refl.
  - intros other Hne. rewrite Hfind'.
    unfold Command_FindCommand. rewrite (deref_lookup _ _ _ Hrecv). simpl.
    rewrite find_in_groups_spec by (by rewrite Hold).
    rewrite Hold, !find_app_first, (Hsame _ _ Hlt1). simpl.
    rewrite Hnode. destruct (String.eqb_spec name other) as [->|_]; [done |].
    by rewrite (Hsame _ _ Hlt2).
Qed.

Lemma AddCommand_then_FindCommand_witness :
  (commands (Console.store console_ops_tree) !! 0
   = Some (Command.set_groups
             [commandGroup.mk "" [1]; commandGroup.mk "admin" [2]] newCommand)
   ∧ Forall (valid (Console.store console_ops_tree)) [1; 2]
   ∧ Forall (fun q => has_name (Console.store console_ops_tree) "kill" q = false)
            [1; 2])
  ∧ ∃ s',
      Command_AddCommand (Console.store console_ops_tree) 0 "kill" "" "" ""
                         None (Some (fun _ => 3))
      = Ok (s', Some 3)
      ∧ Command_FindCommand s' 0 "kill" = Ok (Some 3)
      ∧ ∀ other, other ≠ "kill" →
                 Command_FindCommand s' 0 other
                 = Command_FindCommand (Console.store console_ops_tree) 0 other.
Proof.
  assert (Hnone : Forall (fun q => has_name (Console.store console_ops_tree)
                                            "kill" q = false) [1; 2])
    by (repeat constructor).
  split; [split; [reflexivity | split; [exact console_ops_tree_valid | exact Hnone]] |].
  exact (AddCommand_then_FindCommand (Console.store console_ops_tree) 0 _
           "kill" "" "" "" None (fun _ => 3)
           console_ops_tree_root console_ops_tree_valid Hnone).
Defined.

(** X9. [AddCommand] keeps the tree well formed: when every child pointer was
    allocated after its parent and refers to a node with a generator, this
    still holds after the call, so no command becomes its own descendant; in
    particular the receiver is not among its own children. *)
Theorem AddCommand_keeps_tree (s : Store) (c : addr) (recv : Command.t)
  (name short long group : string) (filters : option slice) (d : DataFactory) :
  tree_ok (commands s) →
  commands s !! c = Some recv →
  ∃ s' cs,
    Command_AddCommand s c name short long group filters (Some d)
    = Ok (s', Some (length (commands s)))
    ∧ tree_ok (commands s')
    ∧ Command_Commands s' c = Ok cs
    ∧ (c ∉ cs).
Proof.
  intros Hok Hrecv.
  pose proof (Command_AddCommand_ok s c recv name short long group filters d Hrecv)
    as Hadd.
  pose proof (AddCommand_tree_ok _ _ _ _ _ _ _ _ _ _ _ Hok Hrecv Hadd) as Hok'.
  pose proof (lookup_lt_Some _ _ _ Hrecv) as Hc.
  eexists _, _. split; [exact Hadd |]. split; [exact Hok' |].
  assert (Hrecv' : commands
                     (mkStore
                        (<[c := Command.set_groups
                                  (add_to_groups (Command.groups recv) group
                                                 (length (commands s))) recv]>
                           (commands s
                            ++ [attached_node name short long group filters d]))
                        (arrays s)) !! c
                   = Some (Command.set_groups
                             (add_to_groups (Command.groups recv) group
                                            (length (commands s))) recv)).
  { simpl. apply list_lookup_insert_eq. rewrite length_app. simpl. lia. }
  split; [exact (Command_Commands_children _ _ _ Hrecv') |].
  intros Hin. pose proof (Hok' _ _ Hrecv') as Hch.
  rewrite Forall_forall in Hch. destruct (Hch c Hin) as [Hlt _]. lia.
Qed.

Lemma AddCommand_keeps_tree_witness :
  (tree_ok (commands (Console.store console_nested))
   ∧ commands (Console.store console_nested) !! 1
     = Some (Command.set_groups [commandGroup.mk "" [2]]
               (attached_node "a" "" "" "" None (fun _ => 1))))
  ∧ ∃ s' cs,
      Command_AddCommand (Console.store console_nested) 1 "c" "" "" "" None
                         (Some (fun _ => 3))
      = Ok (s', Some 3)
      ∧ tree_ok (commands s')
      ∧ Command_Commands s' 1 = Ok cs
      ∧ (1 ∉ cs).
Proof.
  split; [split; [exact console_nested_tree_ok | reflexivity] |].
  exact (AddCommand_keeps_tree (Console.store console_nested) 1 _
           "c" "" "" "" None (fun _ => 3) console_nested_tree_ok eq_refl).
Defined.

(** X10. [Commands()] returns exactly the pointers held by the groups that
    [CommandGroups()] returns, group after group and in the order of each
    group; on a nil receiver both panic. *)
Theorem Commands_flattens_CommandGroups (s : Store) (c : addr) :
  Command_Commands s c
  = (gs ← Command_CommandGroups s c; Ok (concat (commandGroup.cmds <$> gs)))
  ∧ match commands s !! c with
    | Some recv => Command_CommandGroups s c = Ok (Command.groups recv)
    | None => Command_Commands s c = Panic NilDereference
              ∧ Command_CommandGroups s c = Panic NilDereference
    end.
Proof.
  unfold Command_Commands, Command_CommandGroups, deref.
  destruct (commands s !! c); simpl; [| done]. by rewrite Commands_loops.
Qed.

(** X11. [Command.FindCommand] on any receiver returns the first of the
    receiver's children, flattened group after group, that carries the name:
    every child before it carries another name; it returns nil when no child
    carries it, without looking below the children.  [Console.FindCommand] is
    [Command.FindCommand] on the root command of the current context. *)
Theorem Command_FindCommand_first_match (s : Store) (c : addr) (recv : Command.t)
  (name : string) :
  commands s !! c = Some recv →
  Forall (valid s) (Command.children recv) →
  ∃ r, Command_FindCommand s c name = Ok r
       ∧ match r with
         | Some p => ∃ before after,
             Command.children recv = before ++ p :: after
             ∧ has_name s name p = true
             ∧ Forall (fun q => has_name s name q = false) before
         | None => Forall (fun q => has_name s name q = false)
                          (Command.children recv)
         end
       ∧ ∀ k, Console.store k = s → Context.cmd (Console.current k) = c →
              Console_FindCommand k name = Ok r.
Proof.
  intros Hrecv Hvalid.
  exists (find (has_name s name) (Command.children recv)).
  assert (Hrun : Command_FindCommand s c name
                 = Ok (find (has_name s name) (Command.children recv))).
  { unfold Command_FindCommand. rewrite (deref_lookup _ _ _ Hrecv). simpl.
    by apply find_in_groups_spec. }
  split; [exact Hrun |]. split; [apply find_first_match |].
  intros k <- <-. exact Hrun.
Qed.

Lemma Command_FindCommand_first_match_witness :
  (commands (Console.store console_nested) !! 1
   = Some (Command.set_groups [commandGroup.mk "" [2]]
             (attached_node "a" "" "" "" None (fun _ => 1)))
   ∧ Forall (valid (Console.store console_nested)) [2])
  ∧ ∃ r, Command_FindCommand (Console.store console_nested) 1 "b" = Ok r
         ∧ r = Some 2.
Proof.
  assert (Hvalid : Forall (valid (Console.store console_nested)) [2])
    by (repeat constructor; eexists; reflexivity).
  split; [split; [reflexivity | exact Hvalid] |].
  destruct (Command_FindCommand_first_match (Console.store console_nested) 1 _ "b"
              eq_refl Hvalid) as (r & Hrun & _).
  exists r. split; [exact Hrun |].
  assert (Heq : Ok r = Ok (Some 2)) by (rewrite <- Hrun; reflexivity).
  by injection Heq.
Defined.

(** ** The visibility pass on the root-level commands *)

Lemma filters_match_no_filter cmdFilters : filters_match [] cmdFilters = false.
Proof. unfold filters_match. by induction cmdFilters. Qed.

Lemma existsb_none {A} (f : A → bool) l :
  (∀ x, f x = false) → existsb f l = false.
Proof. intros Hf. induction l as [|x l IH]; simpl; [done |]. by rewrite Hf, IH. Qed.

Lemma existsb_same {A} (f g : A → bool) l :
  (∀ x, f x = g x) → existsb f l = existsb g l.
Proof. intros Hfg. induction l as [|x l IH]; simpl; [done |]. by rewrite Hfg, IH. Qed.

Lemma set_Hidden_hidden o : flags.Hidden o = true → flags.set_Hidden true o = o.
Proof. destruct o. simpl. by intros ->. Qed.

Lemma marks_same c c' h p :
  Console.store c' = Console.store c → Console.filters c' = Console.filters c →
  marks c' h p = marks c h p.
Proof. intros Hs Hf. unfold marks. by rewrite Hs, Hf. Qed.

Lemma hideCommands_full c root :
  commands (Console.store c) !! Context.cmd (Console.current c) = Some root →
  Forall (valid (Console.store c)) (Command.children root) →
  handles_ok c →
  ∃ c',
    hideCommands c = Ok c'
    ∧ hidden_pass c c'
    ∧ ∀ h o, handles (Console.world c) !! h = Some o →
             handles (Console.world c') !! h
             = Some (if existsb (marks c h) (Command.children root)
                     then flags.set_Hidden true o else o).
Proof.
  intros Hroot Hvalid Hok.
  destruct (hideCommands_ok c root Hroot Hvalid Hok) as (c1 & Hrun1 & Hpass).
  destruct (hideCommands_root_level c root Hroot Hvalid Hok)
    as (c2 & Hrun2 & _ & Hmarks).
  assert (c1 = c2) as -> by congruence.
  by exists c2.
Qed.

(** X12. The visibility pass returns on a well-formed console and leaves the
    tree, the filter set and the context alone.  A handle is marked hidden
    when a root-level command of the current context holds it and carries a
    tag of the filter set; every other handle, the handles of subcommands
    among them, is exactly as before.  Commands without a handle are passed
    over. *)
Theorem hideCommands_marks_root_level (c : Console.t) (root : Command.t) :
  commands (Console.store c) !! Context.cmd (Console.current c) = Some root →
  Forall (valid (Console.store c)) (Command.children root) →
  handles_ok c →
  ∃ c',
    hideCommands c = Ok c'
    ∧ Console.store c' = Console.store c
    ∧ Console.filters c' = Console.filters c
    ∧ Console.current c' = Console.current c
    ∧ length (handles (Console.world c')) = length (handles (Console.world c))
    ∧ ∀ h o, handles (Console.world c) !! h = Some o →
             handles (Console.world c') !! h
             = Some (if existsb (marks c h) (Command.children root)
                     then flags.set_Hidden true o else o).
Proof.
  intros Hroot Hvalid Hok.
  destruct (hideCommands_full c root Hroot Hvalid Hok)
    as (c' & Hrun & (Hs & Hcur & Hf & Hl & _) & Hmarks).
  exists c'. by repeat split.
Qed.

Lemma rebuilt_ops_handles_ok : handles_ok rebuilt_ops.
Proof.
  intros [|[|[|p]]] n h Hn Hh; vm_compute in Hn; try discriminate;
    injection Hn as <-; vm_compute in Hh; try discriminate;
    injection Hh as <-; vm_compute; lia.
Qed.

Lemma rebuilt_ops_children :
  Forall (valid (Console.store rebuilt_ops))
         (Command.children (Command.set_groups
            [commandGroup.mk "" [1]; commandGroup.mk "admin" [2]] newCommand)).
Proof. repeat constructor; by eexists. Qed.

Lemma hideCommands_marks_root_level_witness :
  ∃ c',
    hideCommands rebuilt_ops = Ok c'
    ∧ Console.store c' = Console.store rebuilt_ops
    ∧ Console.filters c' = Console.filters rebuilt_ops
    ∧ Console.current c' = Console.current rebuilt_ops
    ∧ length (handles (Console.world c'))
      = length (handles (Console.world rebuilt_ops))
    ∧ ∀ h o, handles (Console.world rebuilt_ops) !! h = Some o →
             handles (Console.world c') !! h
             = Some (if existsb (marks rebuilt_ops h)
                          (Command.children (Command.set_groups
                             [commandGroup.mk "" [1]; commandGroup.mk "admin" [2]]
                             newCommand))
                     then flags.set_Hidden true o else o).
Proof.
  exact (hideCommands_marks_root_level rebuilt_ops
           (Command.set_groups
              [commandGroup.mk "" [1]; commandGroup.mk "admin" [2]] newCommand)
           eq_refl rebuilt_ops_children rebuilt_ops_handles_ok).
Defined.

(** X13. The visibility pass only hides.  A handle that was hidden before the
    pass is untouched, no handle changes in a field other than [Hidden], and
    running the pass a second time changes no handle at all: [ShowCommands]
    alone never brings a command back, only a rebuild with fresh handles
    does. *)
Theorem hideCommands_only_hides (c : Console.t) (root : Command.t) :
  commands (Console.store c) !! Context.cmd (Console.current c) = Some root →
  Forall (valid (Console.store c)) (Command.children root) →
  handles_ok c →
  ∃ c',
    hideCommands c = Ok c'
    ∧ (∀ h o, handles (Console.world c) !! h = Some o →
              ∃ o', handles (Console.world c') !! h = Some o'
                    ∧ flags.set_Hidden true o' = flags.set_Hidden true o
                    ∧ (flags.Hidden o = true → o' = o))
    ∧ ∃ c'',
        hideCommands c' = Ok c''
        ∧ handles (Console.world c'') = handles (Console.world c').
Proof.
  intros Hroot Hvalid Hok.
  destruct (hideCommands_full c root Hroot Hvalid Hok)
    as (c' & Hrun & Hpass & Hmarks).
  pose proof Hpass as (Hs & Hcur & Hf & Hl & _).
  exists c'. split; [exact Hrun |]. split.
  - intros h o Ho. rewrite (Hmarks h o Ho).
    destruct (existsb (marks c h) (Command.children root)).
    + exists (flags.set_Hidden true o). split; [done |].
      split; [apply set_Hidden_twice | apply set_Hidden_hidden].
    + by exists o.
  - assert (Hroot' : commands (Console.store c')
                       !! Context.cmd (Console.current c') = Some root)
      by (by rewrite Hs, Hcur).
    assert (Hvalid' : Forall (valid (Console.store c')) (Command.children root))
      by (by rewrite Hs).
    assert (Hok' : handles_ok c') by (by eapply hidden_pass_handles_ok).
    destruct (hideCommands_full c' root Hroot' Hvalid' Hok')
      as (c'' & Hrun' & (_ & _ & _ & Hl' & _) & Hmarks').
    exists c''. split; [exact Hrun' |].
    apply list_eq. intros h.
    destruct (handles (Console.world c) !! h) as [o|] eqn:Ho.
    + rewrite (Hmarks' h _ (Hmarks h o Ho)), (Hmarks h o Ho).
      f_equal.
      replace (existsb (marks c' h) (Command.children root))
        with (existsb (marks c h) (Command.children root)).
      * destruct (existsb (marks c h) (Command.children root)); [| done].
        apply set_Hidden_twice.
      * apply existsb_same. intros p. symmetry. by apply marks_same.
    + apply lookup_ge_None in Ho.
      rewrite (proj2 (lookup_ge_None _ _)) by lia.
      rewrite (proj2 (lookup_ge_None _ _)) by lia. done.
Qed.

Lemma hideCommands_only_hides_witness :
  ∃ c',
    hideCommands rebuilt_ops = Ok c'
    ∧ (∀ h o, handles (Console.world rebuilt_ops) !! h = Some o →
              ∃ o', handles (Console.world c') !! h = Some o'
                    ∧ flags.set_Hidden true o' = flags.set_Hidden true o
                    ∧ (flags.Hidden o = true → o' = o))
    ∧ ∃ c'',
        hideCommands c' = Ok c''
        ∧ handles (Console.world c'') = handles (Console.world c').
Proof.
  exact (hideCommands_only_hides rebuilt_ops
           (Command.set_groups
              [commandGroup.mk "" [1]; commandGroup.mk "admin" [2]] newCommand)
           eq_refl rebuilt_ops_children rebuilt_ops_handles_ok).
Defined.

Lemma hideCommand_no_filter c n p :
  Console.filters c = [] →
  commands (Console.store c) !! p = Some n →
  hideCommand c p = Ok c.
Proof.
  intros Hf Hn. rewrite (hideCommand_eq _ _ _ Hn).
  destruct (Command.cmd n); [| done].
  by rewrite Hf, filters_match_no_filter.
Qed.

(** X14. With an empty filter set the visibility pass returns the console it
    was given: no handle is read or written and nothing is logged, even for
    commands whose handle is stale. *)
Theorem hideCommands_no_filter (c : Console.t) (root : Command.t) :
  commands (Console.store c) !! Context.cmd (Console.current c) = Some root →
  Forall (valid (Console.store c)) (Command.children root) →
  Console.filters c = [] →
  hideCommands c = Ok c.
Proof.
  intros Hroot Hvalid Hf. rewrite (hideCommands_flat _ _ Hroot).
  induction Hvalid as [|p ps [n Hn] _ IH]; [done |].
  cbn [foldM]. rewrite (hideCommand_no_filter c n p Hf Hn). exact IH.
Qed.

Lemma hideCommands_no_filter_witness :
  hideCommands (returned console0 (bindCommands always_scans 4 console_ops_tree))
  = Ok (returned console0 (bindCommands always_scans 4 console_ops_tree)).
Proof.
  apply (hideCommands_no_filter
           (returned console0 (bindCommands always_scans 4 console_ops_tree))
           (Command.set_groups
              [commandGroup.mk "" [1]; commandGroup.mk "admin" [2]] newCommand)).
  - reflexivity.
  - repeat constructor; by eexists.
  - reflexivity.
Defined.

(** ** Loading and reading back a configuration *)

Lemma mode_of_eqb conf :
  (if String.eqb (Config.InputMode conf) InputEmacs
   then readline_Emacs else readline_Vim) = mode_of conf.
Proof.
  unfold mode_of.
  destruct (String.eqb_spec (Config.InputMode conf) InputEmacs);
    by destruct (decide _).
Qed.

Lemma reloadConfig_with_entry loadFromConfig c conf e p :
  Console.config c = Some conf →
  prompt_entry conf (Context.Name (Console.current c)) = Some e →
  loadFromConfig (Context.Prompt (Console.current c)) (Some e) = Ok p →
  reloadConfig loadFromConfig c
  = Ok (Console.mk (Console.store c) (Console.world c)
          (Context.set_Prompt p (Console.current c))
          (Console.filters c) (Console.parserOpts c) (Some conf)
          (Shell.mk (PromptConfig.MultilinePrompt e) (PromptConfig.Multiline e)
                    (mode_of conf))
          (PromptConfig.Newline e)).
Proof.
  intros Hc He Hload. unfold reloadConfig. rewrite Hc. simpl.
  rewrite !He, Hload. simpl. rewrite mode_of_eqb.
  unfold Console.set_shell, Console.set_PreOutputNewline, Console.set_current.
  simpl. by rewrite Hc.
Qed.

Lemma reloadConfig_without_entry loadFromConfig c conf :
  Console.config c = Some conf →
  prompt_entry conf (Context.Name (Console.current c)) = None →
  (∀ k, reloadConfig loadFromConfig c ≠ Ok k)
  ∧ ∀ p, loadFromConfig (Context.Prompt (Console.current c)) None = Ok p →
         reloadConfig loadFromConfig c = Panic NilDereference.
Proof.
  intros Hc He. unfold reloadConfig. rewrite Hc. simpl. rewrite !He.
  split.
  - intros k. by destruct (loadFromConfig _ _).
  - by intros p ->.
Qed.

Lemma LoadConfig_reloads BOLD FOREWHITE loadFromConfig c conf :
  LoadConfig BOLD FOREWHITE loadFromConfig c (Some conf)
  = reloadConfig loadFromConfig
      (Console.set_config (Some (nil_maps_filled BOLD FOREWHITE conf)) c).
Proof.
  unfold LoadConfig, nil_maps_filled.
  by destruct conf as [m [pr|] hi mx [hl|]].
Qed.

(** X15. [LoadConfig] never returns when the configuration has no prompt entry
    for the current context: a map of prompts without a key for the context's
    name, or a nil map (for which only the key [""] is installed) in a context
    of another name.  When [loadFromConfig] lets the nil entry through, the
    failure is the nil dereference in [reloadConfig]. *)
Theorem LoadConfig_needs_prompt_entry (BOLD FOREWHITE : string)
  (loadFromConfig : Prompt.t -> option PromptConfig.t -> result Prompt.t)
  (c : Console.t) (conf : Config.t) :
  match Config.Prompts conf with
  | Some prompts => prompts !! Context.Name (Console.current c) = None
  | None => Context.Name (Console.current c) ≠ ""
  end →
  (∀ k, LoadConfig BOLD FOREWHITE loadFromConfig c (Some conf) ≠ Ok k)
  ∧ ∀ p, loadFromConfig (Context.Prompt (Console.current c)) None = Ok p →
         LoadConfig BOLD FOREWHITE loadFromConfig c (Some conf)
         = Panic NilDereference.
Proof.
  intros Hentry. rewrite LoadConfig_reloads.
  apply (reloadConfig_without_entry loadFromConfig
           (Console.set_config (Some (nil_maps_filled BOLD FOREWHITE conf)) c)
           (nil_maps_filled BOLD FOREWHITE conf)); [reflexivity |].
  unfold prompt_entry, nil_maps_filled. simpl.
  destruct (Config.Prompts conf) as [prompts|]; simpl; [done |].
  by rewrite lookup_insert_ne, lookup_empty.
Qed.

Lemma LoadConfig_needs_prompt_entry_witness :
  (∀ k, LoadConfig "b" "w" (fun p _ => Ok p) console_ops
          (Some (NewDefaultConfig "b" "w")) ≠ Ok k)
  ∧ ∀ p, (fun (p : Prompt.t) (_ : option PromptConfig.t) => Ok p)
           (Context.Prompt (Console.current console_ops)) None = Ok p →
         LoadConfig "b" "w" (fun p _ => Ok p) console_ops
           (Some (NewDefaultConfig "b" "w"))
         = Panic NilDereference.
Proof.
  apply (LoadConfig_needs_prompt_entry "b" "w" (fun p _ => Ok p) console_ops
           (NewDefaultConfig "b" "w")).
  reflexivity.
Defined.


(** X16. With an entry for the current context in the map of prompts, and a
    [loadFromConfig] that returns, [LoadConfig] returns: the prompt is the one
    [loadFromConfig] produced, the multiline prompt, the multiline flag and
    the newline flag are those of the entry, the input mode is Emacs for the
    mode string [emacs] and Vim for every other string.  The command tree, the
    go-flags objects, the filter set and the identity of the context are
    untouched. *)
Theorem LoadConfig_applies_entry (BOLD FOREWHITE : string)
  (loadFromConfig : Prompt.t -> option PromptConfig.t -> result Prompt.t)
  (c : Console.t) (conf : Config.t) (prompts : gmap string PromptConfig.t)
  (e : PromptConfig.t) (p : Prompt.t) :
  Config.Prompts conf = Some prompts →
  prompts !! Context.Name (Console.current c) = Some e →
  loadFromConfig (Context.Prompt (Console.current c)) (Some e) = Ok p →
  ∃ c',
    LoadConfig BOLD FOREWHITE loadFromConfig c (Some conf) = Ok c'
    ∧ Console.current c' = Context.set_Prompt p (Console.current c)
    ∧ Console.shell c'
      = Shell.mk (PromptConfig.MultilinePrompt e) (PromptConfig.Multiline e)
                 (if decide (Config.InputMode conf = "emacs")
                  then readline_Emacs else readline_Vim)
    ∧ Console.PreOutputNewline c' = PromptConfig.Newline e
    ∧ Console.store c' = Console.store c
    ∧ Console.world c' = Console.world c
    ∧ Console.filters c' = Console.filters c.
Proof.
  intros Hprompts He Hload. rewrite LoadConfig_reloads.
  erewrite reloadConfig_with_entry; [| reflexivity | | exact Hload].
  - eexists. split; [reflexivity |]. by repeat split.
  - unfold prompt_entry, nil_maps_filled. simpl. by rewrite Hprompts.
Qed.

Lemma LoadConfig_applies_entry_witness :
  ∃ c',
    LoadConfig "b" "w" load_templates console_ops
      (Some (Config.mk "emacs"
               (Some (<["ops" := PromptConfig.mk "l" "r" false true ">"]> ∅))
               true 50 None)) = Ok c'
    ∧ Console.current c'
      = Context.set_Prompt (Prompt.mk "l" "r") (Console.current console_ops)
    ∧ Console.shell c'
      = Shell.mk ">" true
                 (if decide ("emacs" = "emacs") then readline_Emacs
                  else readline_Vim)
    ∧ Console.PreOutputNewline c' = false
    ∧ Console.store c' = Console.store console_ops
    ∧ Console.world c' = Console.world console_ops
    ∧ Console.filters c' = Console.filters console_ops.
Proof.
  exact (LoadConfig_applies_entry "b" "w" load_templates console_ops
           (Config.mk "emacs"
              (Some (<["ops" := PromptConfig.mk "l" "r" false true ">"]> ∅))
              true 50 None)
           (<["ops" := PromptConfig.mk "l" "r" false true ">"]> ∅)
           (PromptConfig.mk "l" "r" false true ">") (Prompt.mk "l" "r")
           eq_refl eq_refl eq_refl).
Defined.

(** X17. A configuration whose map of prompts is nil can be loaded in the
    context named [""]: [LoadConfig] installs the built-in entry (left
    template [gonsole], multiline prompt [" > "], multiline and newline on),
    hands it to [loadFromConfig] and takes the shell fields from it; reading
    the configuration back shows a map with that one entry. *)
Theorem LoadConfig_nil_prompts (BOLD FOREWHITE : string)
  (loadFromConfig : Prompt.t -> option PromptConfig.t -> result Prompt.t)
  (c : Console.t) (conf : Config.t) (p : Prompt.t) :
  Config.Prompts conf = None →
  Context.Name (Console.current c) = "" →
  loadFromConfig (Context.Prompt (Console.current c))
                 (Some (PromptConfig.mk "gonsole" "" true true " > ")) = Ok p →
  ∃ c' conf',
    LoadConfig BOLD FOREWHITE loadFromConfig c (Some conf) = Ok c'
    ∧ Context.Prompt (Console.current c') = p
    ∧ Shell.MultilinePrompt (Console.shell c') = " > "
    ∧ Shell.Multiline (Console.shell c') = true
    ∧ Console.PreOutputNewline c' = true
    ∧ GetConfig c' = Some conf'
    ∧ Config.Prompts conf'
      = Some (<["" := PromptConfig.mk "gonsole" "" true true " > "]> ∅).
Proof.
  intros Hprompts Hname Hload. rewrite LoadConfig_reloads.
  erewrite reloadConfig_with_entry; [| reflexivity | | exact Hload].
  - do 2 eexists. split; [reflexivity |]. repeat split.
    unfold nil_maps_filled. simpl. by rewrite Hprompts.
  - unfold prompt_entry, nil_maps_filled. simpl. rewrite Hprompts, Hname. simpl.
    by rewrite lookup_insert_eq.
Qed.

Lemma LoadConfig_nil_prompts_witness :
  ∃ c' conf',
    LoadConfig "b" "w" load_templates console0
      (Some (Config.mk "vim" None true 50 None)) = Ok c'
    ∧ Context.Prompt (Console.current c') = Prompt.mk "gonsole" ""
    ∧ Shell.MultilinePrompt (Console.shell c') = " > "
    ∧ Shell.Multiline (Console.shell c') = true
    ∧ Console.PreOutputNewline c' = true
    ∧ GetConfig c' = Some conf'
    ∧ Config.Prompts conf'
      = Some (<["" := PromptConfig.mk "gonsole" "" true true " > "]> ∅).
Proof.
  exact (LoadConfig_nil_prompts "b" "w" load_templates console0
           (Config.mk "vim" None true 50 None) (Prompt.mk "gonsole" "")
           eq_refl eq_refl eq_refl).
Defined.

(** X18. The defaults the console gives itself can be reloaded, unlike
    [NewDefaultConfig()] alone: after [loadDefaultConfig] the map of prompts
    holds the entry [""] with the left template [gonsole ()], so in the
    context named [""] both [reloadConfig] and [LoadConfig(GetConfig())]
    return, with the multiline prompt [" > "], multiline and newline on and
    the Vim input mode. *)
Theorem loadDefaultConfig_reloads (BOLD FOREWHITE : string)
  (loadFromConfig : Prompt.t -> option PromptConfig.t -> result Prompt.t)
  (c : Console.t) (p : Prompt.t) :
  Context.Name (Console.current c) = "" →
  loadFromConfig (Context.Prompt (Console.current c))
                 (Some (PromptConfig.mk "gonsole ()" "" true true " > ")) = Ok p →
  ∃ c',
    reloadConfig loadFromConfig (loadDefaultConfig BOLD FOREWHITE c) = Ok c'
    ∧ LoadConfig BOLD FOREWHITE loadFromConfig c
        (GetConfig (loadDefaultConfig BOLD FOREWHITE c)) = Ok c'
    ∧ Context.Prompt (Console.current c') = p
    ∧ Console.shell c' = Shell.mk " > " true readline_Vim
    ∧ Console.PreOutputNewline c' = true
    ∧ GetConfig c' = GetConfig (loadDefaultConfig BOLD FOREWHITE c).
Proof.
  intros Hname Hload.
  assert (Hrun : reloadConfig loadFromConfig (loadDefaultConfig BOLD FOREWHITE c)
                 = Ok (Console.mk (Console.store c) (Console.world c)
                         (Context.set_Prompt p (Console.current c))
                         (Console.filters c) (Console.parserOpts c)
                         (GetConfig (loadDefaultConfig BOLD FOREWHITE c))
                         (Shell.mk " > " true readline_Vim) true)).
  { rewrite (reloadConfig_with_entry loadFromConfig
               (loadDefaultConfig BOLD FOREWHITE c) _
               (PromptConfig.mk "gonsole ()" "" true true " > ") p eq_refl);
      [reflexivity | | exact Hload].
    unfold prompt_entry. simpl. rewrite Hname. by rewrite lookup_insert_eq. }
  eexists. split; [exact Hrun |]. split; [| by repeat split].
  unfold GetConfig, loadDefaultConfig. simpl Console.config.
  rewrite LoadConfig_reloads. exact Hrun.
Qed.

Lemma loadDefaultConfig_reloads_witness :
  ∃ c',
    reloadConfig load_templates (loadDefaultConfig "b" "w" console0) = Ok c'
    ∧ LoadConfig "b" "w" load_templates console0
        (GetConfig (loadDefaultConfig "b" "w" console0)) = Ok c'
    ∧ Context.Prompt (Console.current c') = Prompt.mk "gonsole ()" ""
    ∧ Console.shell c' = Shell.mk " > " true readline_Vim
    ∧ Console.PreOutputNewline c' = true
    ∧ GetConfig c' = GetConfig (loadDefaultConfig "b" "w" console0).
Proof.
  exact (loadDefaultConfig_reloads "b" "w" load_templates console0
           (Prompt.mk "gonsole ()" "") eq_refl eq_refl).
Defined.


